(** * topik-flashcards: the scheduler and the matcher of [src/app/src/App.jsx]

    The development embeds the pure core of the application:

    - [reviewCard] and [isDue] (the spaced-repetition scheduler),
    - [normalizeAnswer], [levenshtein] and [isCloseMatch] (the matcher),
    - [stripSenseSuffix], the flags of [submitTyping], and the list
      computations of the component ([resetOneCard], [act], [stats],
      [queue], [activeCard], the queue effect and [goToIndex]).

    JavaScript numbers are IEEE 754 binary64 values; they are modelled by
    Rocq's primitive floats, so [+], [-], [*], [<=] and [===] below are the
    operations the JavaScript engine performs.  JavaScript strings are
    sequences of UTF-16 code units and are modelled as lists of code units.
    A property of a card that is [undefined] (or [null]) is [None]. *)

From Stdlib Require Import Ascii String.
From Stdlib Require Import ZArith NArith List Bool Lia Zpower Floats.
Import ListNotations.

Set Implicit Arguments.
#[local] Set Warnings "-inexact-float".

(* ================================================================= *)
(** * JavaScript values used by the core *)

Module Js.

(** A string is the list of its UTF-16 code units. *)
Definition jsstring := list N.

(** String literals of the source are ASCII. *)
Fixpoint lit (s : string) : jsstring :=
  match s with
  | EmptyString => []
  | String a s' => N_of_ascii a :: lit s'
  end.

(** [a === b] on strings. *)
Fixpoint str_eqb (a b : jsstring) : bool :=
  match a, b with
  | [], [] => true
  | x :: a', y :: b' => N.eqb x y && str_eqb a' b'
  | _, _ => false
  end.

(** [a ?? d]: the left operand unless it is [undefined] or [null]. *)
Definition nullish {A : Type} (a : option A) (d : A) : A :=
  match a with
  | Some v => v
  | None => d
  end.

(** Reading a numeric property: [ToNumber(undefined)] is [NaN]. *)
Definition num (a : option float) : float := nullish a nan.

(** [Math.max(a, b)]: [NaN] as soon as one argument is, and [+0] is
    larger than [-0]. *)
Definition Math_max (a b : float) : float :=
  if is_nan a || is_nan b then nan
  else if (a <? b)%float then b
  else if (b <? a)%float then a
  else if is_zero a && get_sign a then b
  else a.

(** [Math.min(a, b)]: [NaN] as soon as one argument is, and [-0] is
    smaller than [+0]. *)
Definition Math_min (a b : float) : float :=
  if is_nan a || is_nan b then nan
  else if (a <? b)%float then a
  else if (b <? a)%float then b
  else if is_zero a && negb (get_sign a) then b
  else a.

(** The float of an integer that fits in 63 bits. *)
Definition float_of_Z (z : Z) : float :=
  match z with
  | Z0 => zero
  | Zpos _ => of_uint63 (Uint63.of_Z z)
  | Zneg p => (- of_uint63 (Uint63.of_Z (Zpos p)))%float
  end.

(** [Math.round(x)]: the integer nearest to [x], ties towards [+∞];
    [NaN], the infinities and the zeros are returned unchanged, and a
    result that is zero keeps the sign of [x].  A finite [x] is
    [± m * 2^e]; for [e >= 0] it is an integer already, otherwise
    [floor (x + 1/2)] is computed exactly on integers (its magnitude is
    at most [2^53]). *)
Definition Math_round (x : float) : float :=
  match Prim2SF x with
  | S754_finite s m e =>
      if (0 <=? e)%Z then x
      else
        let sm := if s then Zneg m else Zpos m in
        let z := Z.shiftr (2 * sm + Z.shiftl 1 (- e)) (- e + 1) in
        if (z =? 0)%Z then (if s then neg_zero else zero)
        else float_of_Z z
  | _ => x
  end.

End Js.

Import Js.

(* ================================================================= *)
(** * The scheduler *)

Open Scope float_scope.

(** [const MIN_EASE = 1.3;] *)
Definition MIN_EASE : float := 0x1.4cccccccccccdp+0.

(** The literals [0.2], [0.05] and [2.5] of the source, as the binary64
    values the engine reads them as. *)
Definition lit_0_2 : float := 0x1.999999999999ap-3.
Definition lit_0_05 : float := 0x1.999999999999ap-5.
Definition lit_2_5 : float := 2.5.

(** [ts + minutes * 60 * 1000] *)
Definition addMinutes (ts minutes : float) : float := ts + minutes * 60 * 1000.
(** [ts + hours * 60 * 60 * 1000] *)
Definition addHours (ts hours : float) : float := ts + hours * 60 * 60 * 1000.
(** [ts + days * 24 * 60 * 60 * 1000] *)
Definition addDays (ts days : float) : float := ts + days * 24 * 60 * 60 * 1000.

(** A card object.  The six review properties may be absent; [rest] stands
    for every other property of the object ([id], [word], [pos], ...),
    which the spread [{ ...card }] copies. *)
Record Card (X : Type) : Type := mkCard {
  ease : option float;
  intervalDays : option float;
  reps : option float;
  lapses : option float;
  state : option jsstring;
  due : option float;
  rest : X
}.

Section Assignments.
Context {X : Type}.

Definition set_ease (c : Card X) (v : float) : Card X :=
  mkCard (Some v) (intervalDays c) (reps c) (lapses c) (state c) (due c) (rest c).
Definition set_intervalDays (c : Card X) (v : float) : Card X :=
  mkCard (ease c) (Some v) (reps c) (lapses c) (state c) (due c) (rest c).
Definition set_reps (c : Card X) (v : float) : Card X :=
  mkCard (ease c) (intervalDays c) (Some v) (lapses c) (state c) (due c) (rest c).
Definition set_lapses (c : Card X) (v : float) : Card X :=
  mkCard (ease c) (intervalDays c) (reps c) (Some v) (state c) (due c) (rest c).
Definition set_state (c : Card X) (v : jsstring) : Card X :=
  mkCard (ease c) (intervalDays c) (reps c) (lapses c) (Some v) (due c) (rest c).
Definition set_due (c : Card X) (v : float) : Card X :=
  mkCard (ease c) (intervalDays c) (reps c) (lapses c) (state c) (Some v) (rest c).
End Assignments.

(** [function reviewCard(card, action, now = Date.now())], with [now]
    always supplied.  The body is the source's sequence of assignments on
    the copy [c]. *)
Definition reviewCard {X : Type} (card : Card X) (action : jsstring) (now : float)
  : Card X :=
  let c := card in
  let c := set_ease c (nullish (ease c) lit_2_5) in
  let c := set_intervalDays c (nullish (intervalDays c) 0) in
  let c := set_reps c (nullish (reps c) 0) in
  let c := set_lapses c (nullish (lapses c) 0) in
  let c := set_state c (nullish (state c) (lit "new")) in
  let c := set_due c (nullish (due c) now) in
  if str_eqb action (lit "again") then
    let c := set_lapses c (num (lapses c) + 1) in
    let c := set_reps c 0 in
    let c := set_intervalDays c 0 in
    let c := set_ease c (Math_max MIN_EASE (num (ease c) - lit_0_2)) in
    let c := set_state c (lit "learning") in
    let c := set_due c (addMinutes now 10) in
    c
  else if str_eqb action (lit "learning") then
    let c := set_state c (lit "learning") in
    let c := set_reps c (Math_min (num (reps c) + 1) 2) in
    let c := set_due c (addHours now 6) in
    c
  else
    let c := set_reps c (num (reps c) + 1) in
    let c :=
      if num (intervalDays c) <=? 0 then set_intervalDays c 1
      else if num (intervalDays c) =? 1 then set_intervalDays c 3
      else set_intervalDays c (Math_round (num (intervalDays c) * num (ease c))) in
    let c := set_ease c (num (ease c) + lit_0_05) in
    let c := set_state c (lit "known") in
    let c := set_due c (addDays now (num (intervalDays c))) in
    c.

(** [function isDue(card, now = Date.now())]: [(card.due ?? 0) <= now]. *)
Definition isDue {X : Type} (card : Card X) (now : float) : bool :=
  nullish (due card) 0 <=? now.

(* ================================================================= *)
(** * The matcher *)

Close Scope float_scope.

(** The code units matched by [\s] in a regular expression, which are
    also the ones [String.prototype.trim] removes: the WhiteSpace and
    LineTerminator code points of ECMAScript. *)
Definition isWhiteSpace (c : N) : bool :=
  ((9 <=? c) && (c <=? 13) || (c =? 32) || (c =? 160) || (c =? 5760)
   || (8192 <=? c) && (c <=? 8202) || (c =? 8232) || (c =? 8233)
   || (c =? 8239) || (c =? 8287) || (c =? 12288) || (c =? 65279))%N.

Fixpoint trimStart (s : jsstring) : jsstring :=
  match s with
  | c :: s' => if isWhiteSpace c then trimStart s' else s
  | [] => []
  end.

Definition trimEnd (s : jsstring) : jsstring := rev (trimStart (rev s)).

(** [s.trim()] *)
Definition trim (s : jsstring) : jsstring := trimEnd (trimStart s).

(** [s.replace(/\s+/g, "")]: every maximal run of white space is
    replaced by the empty string, which deletes every white-space unit. *)
Definition removeWhiteSpace (s : jsstring) : jsstring :=
  filter (fun c => negb (isWhiteSpace c)) s.

(** [dp[i][j]] on an array of arrays of numbers. *)
Definition get (dp : list (list nat)) (i j : nat) : nat :=
  nth j (nth i dp []) 0.

(** [l[i] = v] for an index inside the array. *)
Fixpoint upd {A : Type} (l : list A) (i : nat) (v : A) : list A :=
  match l, i with
  | [], _ => []
  | _ :: l', O => v :: l'
  | x :: l', S i' => x :: upd l' i' v
  end.

(** [dp[i][j] = v] *)
Definition put (dp : list (list nat)) (i j v : nat) : list (list nat) :=
  upd dp i (upd (nth i dp []) j v).

(** [for (let i = lo; i <= hi; i++) body], threading the state. *)
Definition for_loop {St : Type} (lo hi : nat) (body : nat -> St -> St) (s : St)
  : St :=
  fold_left (fun s i => body i s) (seq lo (hi + 1 - lo)) s.

(** [Math.min(a, b, c)] on the small non-negative integers of the table. *)
Definition min3 (a b c : nat) : nat := Nat.min a (Nat.min b c).

(** [s[i] === t[j]] on code units; an index past the end reads
    [undefined]. *)
Definition unit_eqb (a b : option N) : bool :=
  match a, b with
  | Some x, Some y => N.eqb x y
  | None, None => true
  | _, _ => false
  end.

Section Matcher.

(** [String.prototype.toLowerCase], the Unicode lower-casing of the
    engine. *)
Variable toLowerCase : jsstring -> jsstring.

(** [String(s ?? "").trim().replace(/\s+/g, "").toLowerCase()] for a
    string [s], on which [String(s ?? "")] is the identity. *)
Definition normalizeAnswer (s : jsstring) : jsstring :=
  toLowerCase (removeWhiteSpace (trim s)).

(** [function levenshtein(a, b)].  The cells of [dp] hold integers
    between 0 and [n + m], which binary64 represents exactly; they are
    natural numbers here.  Every cell read or written lies inside the
    [(n + 1) x (m + 1)] table. *)
Definition levenshtein (a b : jsstring) : nat :=
  let s := normalizeAnswer a in
  let t := normalizeAnswer b in
  let n := length s in
  let m := length t in
  if (n =? 0)%nat then m
  else if (m =? 0)%nat then n
  else
    let dp := repeat (repeat 0%nat (m + 1)) (n + 1) in
    let dp := for_loop 0 n (fun i dp => put dp i 0 i) dp in
    let dp := for_loop 0 m (fun j dp => put dp 0 j j) dp in
    let dp :=
      for_loop 1 n (fun i dp =>
        for_loop 1 m (fun j dp =>
          let cost :=
            if unit_eqb (nth_error s (i - 1)) (nth_error t (j - 1))
            then 0%nat else 1%nat in
          put dp i j
            (min3 (get dp (i - 1) j + 1)
                  (get dp i (j - 1) + 1)
                  (get dp (i - 1) (j - 1) + cost))) dp) dp in
    get dp n m.

(** [function isCloseMatch(typed, answer)]; [!t] holds of the empty
    string only. *)
Definition isCloseMatch (typed answer : jsstring) : bool :=
  let a := normalizeAnswer answer in
  let t := normalizeAnswer typed in
  match t with
  | [] => false
  | _ :: _ =>
      if str_eqb t a then true
      else
        let dist := levenshtein t a in
        let tol := if (6 <=? length a)%nat then 2%nat else 1%nat in
        (dist <=? tol)%nat
  end.

End Matcher.

(** A lower-casing that acts on the ASCII letters only; it agrees with
    the engine's on strings without other cased characters. *)
Definition asciiToLowerCase (s : jsstring) : jsstring :=
  map (fun c => if ((65 <=? c) && (c <=? 90))%N then (c + 32)%N else c) s.

(* ================================================================= *)
(** * Reference definitions from the specification, and predicates *)

Open Scope float_scope.

(** The record [c] with every absent review property replaced by its
    default: [ease = 2.5], [intervalDays = 0], [reps = 0], [lapses = 0],
    [state = "new"], [due = now]. *)
Definition fill_defaults {X : Type} (c : Card X) (now : float) : Card X :=
  mkCard (Some (nullish (ease c) lit_2_5))
         (Some (nullish (intervalDays c) 0))
         (Some (nullish (reps c) 0))
         (Some (nullish (lapses c) 0))
         (Some (nullish (state c) (lit "new")))
         (Some (nullish (due c) now))
         (rest c).

(** The edit cost of the last units of the prefixes of lengths [i + 1]
    and [j + 1]: 0 when [s[i]] and [t[j]] are equal, 1 otherwise. *)
Definition subst_cost (s t : jsstring) (i j : nat) : nat :=
  if unit_eqb (nth_error s i) (nth_error t j) then 0%nat else 1%nat.

(** The recurrence of the Levenshtein distance between the prefix of
    length [i] of [s] and the prefix of length [j] of [t]:
    [D i 0 = i], [D 0 j = j] and
    [D i j = min (D (i-1) j + 1) (D i (j-1) + 1) (D (i-1) (j-1) + cost)]. *)
Fixpoint lev_rec (s t : jsstring) (i : nat) {struct i} : nat -> nat :=
  match i with
  | O => fun j => j
  | S i' =>
      fix row (j : nat) : nat :=
        match j with
        | O => S i'
        | S j' =>
            min3 (lev_rec s t i' (S j') + 1)
                 (row j' + 1)
                 (lev_rec s t i' j' + subst_cost s t i' j')
        end
  end.

(** The Levenshtein distance of two strings by that recurrence. *)
Definition lev_distance (s t : jsstring) : nat :=
  lev_rec s t (length s) (length t).

(** A table of [n + 1] rows of [m + 1] cells. *)
Definition table_ok (n m : nat) (dp : list (list nat)) : Prop :=
  length dp = (n + 1)%nat /\ Forall (fun row => length row = (m + 1)%nat) dp.

(** A string without white space. *)
Definition no_ws (s : jsstring) : Prop :=
  Forall (fun c => isWhiteSpace c = false) s.

(** Edit scripts, read as alignments built from left to right:
    [alignment s t k] when [s] can be turned into [t] by a script of
    deletions, insertions and substitutions of single code units, [k] of
    them in all (units that are kept cost nothing). *)
Inductive alignment : jsstring -> jsstring -> nat -> Prop :=
| al_nil : alignment [] [] 0
| al_delete s t k x : alignment s t k -> alignment (s ++ [x]) t (S k)
| al_insert s t k y : alignment s t k -> alignment s (t ++ [y]) (S k)
| al_keep s t k x : alignment s t k -> alignment (s ++ [x]) (t ++ [x]) k
| al_substitute s t k x y :
    alignment s t k -> alignment (s ++ [x]) (t ++ [y]) (S k).

(** The tolerance for a normalised answer [a]: 2 from length 6 on, 1
    below. *)
Definition tolerance (a : jsstring) : nat :=
  if (6 <=? length a)%nat then 2%nat else 1%nat.

(** Grading [c] with "again" at each time of [nows], in order. *)
Definition again_times {X : Type} (c : Card X) (nows : list float) : Card X :=
  fold_left (fun c now => reviewCard c (lit "again") now) nows c.

(** Grading [c] along a sequence of (action, time) pairs. *)
Definition grade_all {X : Type} (c : Card X) (steps : list (jsstring * float))
  : Card X :=
  fold_left (fun c st => reviewCard c (fst st) (snd st)) steps c.

(** The ease the scheduler reads from a card: its [ease], or 2.5 when the
    property is absent. *)
Definition effective_ease {X : Type} (c : Card X) : float :=
  nullish (ease c) lit_2_5.

(** The ease floor: the ease read from the card is at least 1.3. *)
Definition ease_floor {X : Type} (c : Card X) : Prop :=
  (MIN_EASE <=? effective_ease c) = true.

(* ================================================================= *)
(** * Further functions of [App.jsx] *)

Close Scope float_scope.

(** The class [[가-힣]] of the regular expression: the Hangul syllables
    U+AC00 to U+D7A3. *)
Definition isHangulSyllable (c : N) : bool := ((44032 <=? c) && (c <=? 55203))%N.

(** The class [\d]: the ASCII digits. *)
Definition isDigit (c : N) : bool := ((48 <=? c) && (c <=? 57))%N.

(** [function stripSenseSuffix(word)] on a string:
    [s.replace(/([가-힣])\d{2}$/, "$1")] with [s] the trimmed word.  The
    pattern is anchored at the end of the input, so it matches at most
    once, on the last three code units; the match is replaced by its
    first unit. *)
Definition stripSenseSuffix (word : jsstring) : jsstring :=
  let s := trim word in
  match rev s with
  | d2 :: d1 :: h :: r =>
      if isHangulSyllable h && isDigit d1 && isDigit d2 then rev (h :: r)
      else s
  | _ => s
  end.

Section Typing.

Variable toLowerCase : jsstring -> jsstring.

(** The two flags [submitTyping] computes from the typed text and the
    word of the active card:
    [ok = normalizeAnswer(typed) === normalizeAnswer(word)] and
    [close = !ok && isCloseMatch(typed, word)]. *)
Definition submitTyping (typed word : jsstring) : bool * bool :=
  let ok := str_eqb (normalizeAnswer toLowerCase typed)
                    (normalizeAnswer toLowerCase word) in
  let close := negb ok && isCloseMatch toLowerCase typed word in
  (ok, close).

(** The [correct] flag [submitTyping] passes to the statistics:
    [ok || close]. *)
Definition submitTyping_correct (typed word : jsstring) : bool :=
  fst (submitTyping typed word) || snd (submitTyping typed word).

End Typing.

(** [goToIndex(nextIdx)] on a queue of [len] cards: nothing happens on an
    empty queue, otherwise the new index is [(nextIdx + len) % len], with
    the remainder of JavaScript, which has the sign of the dividend.
    Indices are integers far below [2^53]. *)
Definition goToIndex (len nextIdx : Z) : option Z :=
  if (len =? 0)%Z then None else Some (Z.rem (nextIdx + len) len).

(** [nextCard()] and [prevCard()] from the index [queueIndex]. *)
Definition nextCard (len queueIndex : Z) : option Z := goToIndex len (queueIndex + 1).
Definition prevCard (len queueIndex : Z) : option Z := goToIndex len (queueIndex - 1).

Section CardList.

Context {X : Type}.

(** The [id] property of a card, a string. *)
Variable getId : X -> jsstring.

Definition card_id (c : Card X) : jsstring := getId (rest c).

(** [c.id === activeId], where [activeId] is [null] or a string. *)
Definition id_is (activeId : option jsstring) (c : Card X) : bool :=
  match activeId with
  | Some i => str_eqb (card_id c) i
  | None => false
  end.

(** [c.state === s] *)
Definition state_is (s : jsstring) (c : Card X) : bool :=
  match state c with
  | Some v => str_eqb v s
  | None => false
  end.

(** The card list after [resetOneCard(id)] run at time [now]:
    [prev.map(c => c.id === id ? { ...c, state: "new", due: now,
    intervalDays: 0, reps: 0, lapses: 0, ease: 2.5 } : c)]. *)
Definition resetOneCard (prev : list (Card X)) (id : jsstring) (now : float)
  : list (Card X) :=
  map (fun c =>
         if str_eqb (card_id c) id
         then mkCard (Some lit_2_5) (Some 0%float) (Some 0%float) (Some 0%float)
                     (Some (lit "new")) (Some now) (rest c)
         else c) prev.

(** The card list after [act(action)] run at time [now]: nothing changes
    without an active card; otherwise
    [updated = reviewCard(activeCard, action)] and
    [prev.map(c => c.id === updated.id ? updated : c)]. *)
Definition act (prev : list (Card X)) (activeCard : option (Card X))
    (action : jsstring) (now : float) : list (Card X) :=
  match activeCard with
  | None => prev
  | Some a =>
      let updated := reviewCard a action now in
      map (fun c => if str_eqb (card_id c) (card_id updated) then updated else c)
          prev
  end.

(** The [stats] memo: the numbers of due, learning and known cards and
    the total, at time [now]. *)
Definition stats (cards : list (Card X)) (now : float) : nat * nat * nat * nat :=
  (length (filter (fun c => isDue c now) cards),
   length (filter (state_is (lit "learning")) cards),
   length (filter (state_is (lit "known")) cards),
   length cards).

(** The [queue] memo for a mode, at time [now]. *)
Definition queue (filteredCards : list (Card X)) (mode : jsstring) (now : float)
  : list (Card X) :=
  if str_eqb mode (lit "due") then filter (fun c => isDue c now) filteredCards
  else if str_eqb mode (lit "learning")
  then filter (state_is (lit "learning")) filteredCards
  else if str_eqb mode (lit "known")
  then filter (state_is (lit "known")) filteredCards
  else if str_eqb mode (lit "all") then filteredCards
  else [].

(** The [activeCard] memo: [null] on an empty queue, otherwise
    [queue.find(c => c.id === activeId) ?? queue[0]]. *)
Definition activeCard (q : list (Card X)) (activeId : option jsstring)
  : option (Card X) :=
  match q with
  | [] => None
  | first :: _ => Some (nullish (find (id_is activeId) q) first)
  end.

(** [queue.findIndex(p)], with [None] for [-1]. *)
Fixpoint findIndex (p : Card X -> bool) (q : list (Card X)) : option nat :=
  match q with
  | [] => None
  | c :: q' => if p c then Some O else option_map S (findIndex p q')
  end.

(** The index the queue effect settles on when the queue is not empty:
    [idx = activeId ? queue.findIndex(c => c.id === activeId) : -1] and
    [resolved = idx >= 0 ? idx : 0].  The empty string and [null] are
    falsy. *)
Definition resolvedIndex (q : list (Card X)) (activeId : option jsstring) : nat :=
  let idx :=
    match activeId with
    | Some (_ :: _) => findIndex (id_is activeId) q
    | _ => None
    end in
  nullish idx O.

End CardList.

Open Scope float_scope.

(* ================================================================= *)
(** * Sanity checks on the embedding *)

Example literals_are_the_decimal_ones :
  MIN_EASE = 1.3 /\ lit_0_2 = 0.2 /\ lit_0_05 = 0.05.
Proof. repeat split. Qed.

Example Math_round_samples :
  map Math_round [2.5; -2.5; 7.8; -0.2; 0.49999999999999994; 1.5; -1.5; 0.5]
  = [3; -2; 8; neg_zero; 0; 2; -1; 1].
Proof. vm_compute. reflexivity. Qed.

Example fresh_card_known_twice :
  let T0 := 1700000000000 in
  let fresh := mkCard (Some 2.5) (Some 0) (Some 0) (Some 0) (Some (lit "new")) (Some T0) tt in
  let c1 := reviewCard fresh (lit "known") T0 in
  let c2 := reviewCard c1 (lit "known") (T0 + 86400000) in
  let c3 := reviewCard c2 (lit "known") (T0 + 345600000) in
  (intervalDays c1, reps c1, due c1) = (Some 1, Some 1, Some (T0 + 86400000)) /\
  (intervalDays c2, reps c2, due c2) = (Some 3, Some 2, Some (T0 + 345600000)) /\
  intervalDays c3 = Some 8.
Proof. vm_compute. repeat split. Qed.

Example normalizeAnswer_sample :
  normalizeAnswer asciiToLowerCase (lit "  Gamsa  Hamnida ")
  = lit "gamsahamnida".
Proof. reflexivity. Qed.

Example levenshtein_sample :
  levenshtein asciiToLowerCase (lit "kitten") (lit "Sit ting") = 3%nat.
Proof. reflexivity. Qed.

(** The answer is the two Hangul syllables U+AC00 U+ACA9. *)
Example isCloseMatch_samples :
  let answer := [44032; 44201]%N in
  isCloseMatch asciiToLowerCase [44032; 44200]%N answer = true
  /\ isCloseMatch asciiToLowerCase [44033; 44200]%N answer = false
  /\ isCloseMatch asciiToLowerCase (lit " ") answer = false
  /\ isCloseMatch asciiToLowerCase (lit "Flash-card") (lit "flashcards") = true
  /\ isCloseMatch asciiToLowerCase (lit "Flush Card") (lit "flashcards") = true
  /\ isCloseMatch asciiToLowerCase (lit "flush-card") (lit "flashcards") = false.
Proof. repeat split. Qed.

(* ================================================================= *)
(** * Facts on binary64 arithmetic

    The primitive operations are read through their specification
    ([add_spec], [sub_spec], [leb_spec], ...) on [spec_float]. *)

Close Scope float_scope.
Open Scope Z_scope.

Lemma digits2_pos_size (p : positive) : digits2_pos p = Pos.size p.
Proof. induction p; simpl; congruence. Qed.

Lemma digits2_pos_bounds (p : positive) :
  2 ^ (Zpos (digits2_pos p) - 1) <= Zpos p < 2 ^ Zpos (digits2_pos p).
Proof.
  rewrite digits2_pos_size.
  pose proof (Pos.size_gt p) as Hgt. pose proof (Pos.size_le p) as Hle.
  apply Pos2Z.pos_lt_pos in Hgt. apply Pos2Z.pos_le_pos in Hle.
  rewrite Pos2Z.inj_pow in Hgt, Hle.
  split; [|exact Hgt].
  replace (Zpos (Pos.size p)) with (Zpos (Pos.size p) - 1 + 1) in Hle by lia.
  rewrite Z.pow_add_r in Hle by lia.
  change (Zpos p~0) with (2 * Zpos p) in Hle. lia.
Qed.

Lemma shr_1_m (mrs : shr_record) :
  0 <= shr_m mrs -> shr_m (shr_1 mrs) = shr_m mrs / 2.
Proof.
  destruct mrs as [m r s]; simpl. intros Hm.
  destruct m as [|[p|p|]|p]; cbn [shr_m shr_1]; try lia; try reflexivity.
  - apply Z.div_unique with (r := 1); lia.
  - apply Z.div_unique with (r := 0); lia.
Qed.

Lemma pow2_xO (p : positive) : 2 ^ Zpos p~0 = 2 ^ Zpos p * 2 ^ Zpos p.
Proof.
  rewrite (Pos2Z.inj_xO p). replace (2 * Zpos p) with (Zpos p + Zpos p) by lia.
  apply Z.pow_add_r; lia.
Qed.

Lemma pow2_xI (p : positive) : 2 ^ Zpos p~1 = 2 * (2 ^ Zpos p * 2 ^ Zpos p).
Proof.
  rewrite (Pos2Z.inj_xI p). replace (2 * Zpos p + 1) with (1 + (Zpos p + Zpos p)) by lia.
  rewrite !Z.pow_add_r by lia. reflexivity.
Qed.

Lemma iter_pos_shr_1_m (p : positive) : forall mrs : shr_record,
  0 <= shr_m mrs ->
  shr_m (iter_pos shr_1 p mrs) = shr_m mrs / 2 ^ Zpos p.
Proof.
  assert (Hpow : forall q, 0 < 2 ^ Zpos q) by (intros q; apply Z.pow_pos_nonneg; lia).
  induction p as [p IH|p IH|]; intros mrs Hm; simpl iter_pos.
  - assert (H1 : 0 <= shr_m (shr_1 mrs)) by (rewrite shr_1_m by lia; apply Z.div_pos; lia).
    assert (H2 : 0 <= shr_m (iter_pos shr_1 p (shr_1 mrs)))
      by (rewrite IH by lia; apply Z.div_pos; [lia|apply Hpow]).
    rewrite IH, IH, shr_1_m by assumption.
    pose proof (Hpow p).
    rewrite !Z.div_div by lia.
    rewrite pow2_xI. reflexivity.
  - assert (H2 : 0 <= shr_m (iter_pos shr_1 p mrs))
      by (rewrite IH by lia; apply Z.div_pos; [lia|apply Hpow]).
    rewrite IH, IH by assumption.
    pose proof (Hpow p).
    rewrite Z.div_div by lia.
    rewrite pow2_xO. reflexivity.
  - rewrite shr_1_m by assumption. reflexivity.
Qed.

Lemma fexp_eq (z : Z) : fexp prec emax z = Z.max (z - 53) (-1074).
Proof. reflexivity. Qed.

Lemma shr_m_nonneg (mrs : shr_record) (e n : Z) :
  0 <= shr_m mrs -> 0 <= shr_m (fst (shr mrs e n)).
Proof.
  intros Hm. destruct n as [|p|p]; simpl; try assumption.
  rewrite iter_pos_shr_1_m by assumption.
  apply Z.div_pos; [assumption|apply Z.pow_pos_nonneg; lia].
Qed.

Lemma shr_record_of_loc_m (m : Z) (l : location) : shr_m (shr_record_of_loc m l) = m.
Proof. destruct l as [|[]]; reflexivity. Qed.

Lemma round_nearest_even_ge (m : Z) (l : location) : m <= round_nearest_even m l.
Proof. destruct l as [|[]]; simpl; try lia. destruct (Z.even m); lia. Qed.

(** Rounding a non-negative integer mantissa never yields NaN. *)
Lemma binary_round_aux_not_nan (s : bool) (mx ex : Z) (l : location) :
  0 <= mx -> binary_round_aux prec emax s mx ex l <> S754_nan.
Proof.
  intros Hm. unfold binary_round_aux, shr_fexp.
  destruct (shr (shr_record_of_loc mx l) ex _) as [mrs' e'] eqn:E1.
  assert (H1 : 0 <= shr_m mrs').
  { change mrs' with (fst (mrs', e')). rewrite <- E1.
    apply shr_m_nonneg. rewrite shr_record_of_loc_m. exact Hm. }
  destruct (shr (shr_record_of_loc _ loc_Exact) e' _) as [mrs'' e''] eqn:E2.
  assert (H2 : 0 <= shr_m mrs'').
  { change mrs'' with (fst (mrs'', e'')). rewrite <- E2.
    apply shr_m_nonneg. rewrite shr_record_of_loc_m.
    pose proof (round_nearest_even_ge (shr_m mrs') (loc_of_shr_record mrs')). lia. }
  destruct (shr_m mrs'') as [|p|p]; try discriminate; [|lia].
  destruct (_ <=? _); discriminate.
Qed.

Lemma binary_normalize_not_nan (m e : Z) (sz : bool) :
  binary_normalize prec emax m e sz <> S754_nan.
Proof.
  destruct m as [|p|p]; simpl; try discriminate;
    unfold binary_round; destruct (shl_align _ _ _) as [mz ez];
    apply binary_round_aux_not_nan; lia.
Qed.

(** Rounding a positive mantissa of more than 53 bits: the result is
    [+∞] or a finite positive float whose exponent is at least the
    exponent [e'] of the truncation, with a mantissa at least the
    truncated one when the exponent is [e']. *)
Lemma binary_round_aux_lower (M : positive) (ex : Z) :
  let D := Zpos (digits2_pos M) in
  53 < D -> -1074 <= D + ex - 53 ->
  binary_round_aux prec emax false (Zpos M) ex loc_Exact = S754_infinity false \/
  exists m'' e'',
    binary_round_aux prec emax false (Zpos M) ex loc_Exact = S754_finite false m'' e'' /\
    (D + ex - 53 < e'' \/ (e'' = D + ex - 53 /\ Zpos M / 2 ^ (D - 53) <= Zpos m'')).
Proof.
  intros D HD Hmin.
  pose proof (digits2_pos_bounds M) as HM. fold D in HM.
  unfold binary_round_aux, shr_fexp.
  cbn [Zdigits2]. fold D. rewrite fexp_eq.
  replace (Z.max (D + ex - 53) (-1074) - ex) with (D - 53) by lia.
  destruct (D - 53) as [|k|k] eqn:Ek; try lia.
  cbn [shr shr_record_of_loc].
  set (mrs' := iter_pos shr_1 k _).
  assert (Hq : shr_m mrs' = Zpos M / 2 ^ Zpos k).
  { unfold mrs'. rewrite iter_pos_shr_1_m by (simpl; lia). reflexivity. }
  assert (Hqlo : 2 ^ 52 <= shr_m mrs').
  { rewrite Hq. apply Z.div_le_lower_bound; [apply Z.pow_pos_nonneg; lia|].
    rewrite <- Z.pow_add_r by lia.
    replace (Zpos k + 52) with (D - 1) by lia. lia. }
  pose proof (round_nearest_even_ge (shr_m mrs') (loc_of_shr_record mrs')) as Hr.
  set (r := round_nearest_even _ _) in *.
  destruct r as [|rp|rp] eqn:Er; try lia.
  cbn [Zdigits2]. rewrite fexp_eq.
  pose proof (digits2_pos_bounds rp) as Hrp.
  set (Dr := Zpos (digits2_pos rp)) in *.
  set (e' := ex + Zpos k).
  destruct (Z.max (Dr + e' - 53) (-1074) - e') as [|n|n] eqn:En.
  - (* no second shift *)
    cbn [shr shr_m].
    destruct (e' <=? emax - prec); [right|left; reflexivity].
    exists rp, e'. split; [reflexivity|]. right. split; [unfold e'; lia|].
    rewrite <- Hq. lia.
  - (* the rounding carried: one more shift *)
    cbn [shr].
    rewrite iter_pos_shr_1_m by (simpl; lia). cbn [shr_m].
    assert (Hn : Zpos n = Dr - 53) by (unfold e' in *; lia).
    assert (Hpos : 2 ^ 52 <= Zpos rp / 2 ^ Zpos n).
    { apply Z.div_le_lower_bound; [apply Z.pow_pos_nonneg; lia|].
      rewrite <- Z.pow_add_r by lia.
      replace (Zpos n + 52) with (Dr - 1) by lia. lia. }
    destruct (Zpos rp / 2 ^ Zpos n) as [|q|q]; try (simpl in Hpos; lia).
    destruct (e' + Zpos n <=? emax - prec); [right|left; reflexivity].
    exists q, (e' + Zpos n). split; [reflexivity|]. left. unfold e'. lia.
  - cbn [shr shr_m].
    destruct (e' <=? emax - prec); [right|left; reflexivity].
    exists rp, e'. split; [reflexivity|]. right. split; [unfold e'; lia|].
    rewrite <- Hq. lia.
Qed.

Open Scope float_scope.

Lemma Prim2SF_MIN_EASE : Prim2SF MIN_EASE = S754_finite false 5854679515581645 (-52).
Proof. vm_compute. reflexivity. Qed.

Lemma Prim2SF_lit_0_05 : Prim2SF lit_0_05 = S754_finite false 7205759403792794 (-57).
Proof. vm_compute. reflexivity. Qed.

Lemma Prim2SF_lit_0_2 : Prim2SF lit_0_2 = S754_finite false 7205759403792794 (-55).
Proof. vm_compute. reflexivity. Qed.

(** The floats that are at least [MIN_EASE], read on their specification. *)
Lemma MIN_EASE_leb_inv (x : float) :
  (MIN_EASE <=? x) = true ->
  Prim2SF x = S754_infinity false \/
  exists m ex, Prim2SF x = S754_finite false m ex /\
    (Z.pos (digits2_pos m) = 53)%Z /\
    ((-52 < ex)%Z \/ (ex = -52 /\ 5854679515581645 <= Z.pos m)%Z).
Proof.
  rewrite leb_spec, Prim2SF_MIN_EASE. intros H.
  pose proof (Prim2SF_valid x) as Hv.
  destruct (Prim2SF x) as [s|s| |s m ex]; try discriminate.
  - destruct s; [discriminate|left; reflexivity].
  - destruct s; [discriminate|]. right. exists m, ex. split; [reflexivity|].
    unfold SFleb, SFcompare in H.
    cbn [valid_binary] in Hv. unfold bounded, canonical_mantissa in Hv.
    apply andb_prop in Hv as [Hc _]. apply Z.eqb_eq in Hc. rewrite fexp_eq in Hc.
    destruct (Z.compare_spec (-52) ex) as [He|He|He]; try discriminate.
    + subst ex. split; [lia|]. right. split; [reflexivity|].
      change (Pos.compare_cont Eq 5854679515581645 m)
        with (5854679515581645 ?= m)%positive in H.
      destruct (Pos.compare_spec 5854679515581645 m) as [Hc1|Hc1|Hc1].
      * subst m. apply Z.le_refl.
      * apply Z.lt_le_incl. apply Pos2Z.pos_lt_pos. exact Hc1.
      * discriminate H.
    + split; [lia|]. left. exact He.
Qed.

Lemma MIN_EASE_leb_intro (x : float) :
  Prim2SF x = S754_infinity false \/
  (exists m ex, Prim2SF x = S754_finite false m ex /\
    ((-52 < ex)%Z \/ (ex = -52 /\ 5854679515581645 <= Z.pos m)%Z)) ->
  (MIN_EASE <=? x) = true.
Proof.
  rewrite leb_spec, Prim2SF_MIN_EASE.
  intros [->|(m & ex & -> & H)]; [reflexivity|].
  unfold SFleb, SFcompare.
  destruct H as [H|[-> H]].
  - apply Z.compare_lt_iff in H. rewrite H. reflexivity.
  - rewrite Z.compare_refl.
    change (Pos.compare_cont Eq 5854679515581645 m) with (5854679515581645 ?= m)%positive.
    destruct (Pos.compare_spec 5854679515581645 m) as [Hc1|Hc1|Hc1]; try reflexivity.
    apply Pos2Z.pos_lt_pos in Hc1. apply Z.lt_nge in Hc1. contradiction.
Qed.

Lemma pow2_lt_inv (a b : Z) : (0 <= a -> 0 <= b -> 2 ^ a < 2 ^ b -> a < b)%Z.
Proof. intros Ha Hb H. apply (Z.pow_lt_mono_r_iff 2); lia. Qed.

Lemma iter_xO_pow2 (m d : positive) :
  (Z.pos (Pos.iter xO m d) = 2 ^ Z.pos d * Z.pos m)%Z.
Proof.
  change (Pos.iter xO m d) with (shift_pos d m).
  rewrite shift_pos_correct. reflexivity.
Qed.

(** Adding [0.05] to a float that is at least [MIN_EASE] gives a float
    that is at least [MIN_EASE]. *)
Lemma MIN_EASE_add_0_05 (x : float) :
  (MIN_EASE <=? x) = true -> (MIN_EASE <=? x + lit_0_05) = true.
Proof.
  intros H. apply MIN_EASE_leb_inv in H. apply MIN_EASE_leb_intro.
  rewrite add_spec, Prim2SF_lit_0_05.
  destruct H as [->|(m & ex & -> & HD & Hex)]; [left; reflexivity|].
  assert (Hex52 : (-52 <= ex)%Z) by lia.
  pose proof (digits2_pos_bounds m) as Hm. rewrite HD in Hm.
  change (2 ^ (53 - 1))%Z with 4503599627370496%Z in Hm.
  destruct (-57 - ex)%Z as [|d|d] eqn:Hd; try lia.
  set (M := (Pos.iter xO m d + 7205759403792794)%positive).
  set (R := SF64add _ _).
  assert (HRdef : R = binary_round prec emax false M (-57)).
  { unfold R, SF64add, SFadd. rewrite Z.min_r by lia.
    unfold shl_align. rewrite Hd. reflexivity. }
  rewrite HRdef. clear R HRdef. unfold binary_round.
  assert (HM : (Z.pos M = 2 ^ Z.pos d * Z.pos m + 7205759403792794)%Z).
  { unfold M. rewrite Pos2Z.inj_add, iter_xO_pow2. reflexivity. }
  assert (Hd5 : (5 <= Z.pos d)%Z) by lia.
  assert (Hp5 : (2 ^ 5 <= 2 ^ Z.pos d)%Z) by (apply Z.pow_le_mono_r; lia).
  change (2 ^ 5)%Z with 32%Z in Hp5.
  pose proof (digits2_pos_bounds M) as HMb.
  set (D := Z.pos (digits2_pos M)) in *.
  assert (HD58 : (58 <= D)%Z).
  { assert (2 ^ 57 < 2 ^ D)%Z; [|apply pow2_lt_inv in H; lia].
    change (2 ^ 57)%Z with (32 * 4503599627370496)%Z. nia. }
  assert (Hal : shl_align M (-57) (fexp prec emax (D + -57)) = (M, (-57)%Z)).
  { unfold shl_align. rewrite fexp_eq.
    destruct (Z.max (D + -57 - 53) (-1074) - -57)%Z eqn:E; try reflexivity. lia. }
  rewrite Hal. cbv beta iota.
  pose proof (binary_round_aux_lower M (-57)) as HR.
  cbv zeta in HR. fold D in HR.
  destruct HR as [->|(m'' & e'' & -> & He'')]; try lia; [left; reflexivity|].
  right. exists m'', e''. split; [reflexivity|].
  destruct (Z.eq_dec D 58) as [HD'|HD']; [|left; lia].
  destruct He'' as [He''|[-> Hq]]; [left; lia|].
  right. split; [lia|].
  rewrite HD' in Hq, HMb. change (2 ^ (58 - 53))%Z with 32%Z in Hq.
  assert (Hd5' : Z.pos d = 5%Z).
  { assert (2 ^ Z.pos d < 2 ^ 6)%Z; [|apply pow2_lt_inv in H; lia].
    change (2 ^ 6)%Z with 64%Z. change (2 ^ 58)%Z with (64 * 4503599627370496)%Z in HMb.
    nia. }
  rewrite Hd5' in HM. change (2 ^ 5)%Z with 32%Z in HM.
  assert (Hm13 : (5854679515581645 <= Z.pos m)%Z) by lia.
  assert (Z.pos m <= Z.pos M / 32)%Z by (apply Z.div_le_lower_bound; lia).
  lia.
Qed.

Lemma SFcompare_antisym (a b : spec_float) :
  SFcompare b a = match SFcompare a b with
                  | Some c => Some (CompOpp c)
                  | None => None
                  end.
Proof.
  destruct a as [[]|[]| |[] m1 e1], b as [[]|[]| |[] m2 e2];
    try reflexivity; cbn [SFcompare]; f_equal;
    rewrite (Z.compare_antisym e1 e2);
    destruct (e1 ?= e2)%Z; cbn [CompOpp]; try reflexivity;
    rewrite ?CompOpp_involutive;
    first [ symmetry; exact (Pos.compare_cont_antisym m1 m2 Eq)
          | exact (Pos.compare_cont_antisym m2 m1 Eq) ].
Qed.

Lemma SFcompare_refl (a : spec_float) :
  a <> S754_nan -> SFcompare a a = Some Eq.
Proof.
  destruct a as [[]|[]| |[] m e]; intros H; try reflexivity;
    try (exfalso; apply H; reflexivity);
    cbn [SFcompare]; rewrite Z.compare_refl, Pos.compare_cont_refl; reflexivity.
Qed.

Lemma is_nan_false_iff (x : float) :
  is_nan x = false <-> Prim2SF x <> S754_nan.
Proof.
  unfold is_nan. rewrite eqb_spec. unfold SFeqb. split.
  - intros H E. rewrite E in H. discriminate.
  - intros H. rewrite (SFcompare_refl H). reflexivity.
Qed.

Lemma ltb_leb (a b : float) : (a <? b) = true -> (a <=? b) = true.
Proof.
  rewrite ltb_spec, leb_spec. unfold SFltb, SFleb.
  destruct (SFcompare _ _) as [[]|]; congruence.
Qed.

Lemma leb_not_ltb (a b : float) : (a <=? b) = true -> (b <? a) = false.
Proof.
  rewrite ltb_spec, leb_spec. unfold SFltb, SFleb.
  rewrite (SFcompare_antisym (Prim2SF a) (Prim2SF b)).
  destruct (SFcompare _ _) as [[]|]; cbn [CompOpp]; congruence.
Qed.

Lemma MIN_EASE_leb_not_nan (x : float) :
  (MIN_EASE <=? x) = true -> is_nan x = false.
Proof.
  intros H. apply is_nan_false_iff.
  destruct (MIN_EASE_leb_inv H) as [->|(m & ex & -> & _)]; discriminate.
Qed.

(** Subtracting [0.2] from a number gives a number. *)
Lemma sub_0_2_not_nan (x : float) :
  is_nan x = false -> is_nan (x - lit_0_2) = false.
Proof.
  rewrite !is_nan_false_iff, sub_spec, Prim2SF_lit_0_2. intros H.
  destruct (Prim2SF x) as [s|s| |s m e]; try discriminate.
  - exfalso; apply H; reflexivity.
  - unfold SF64sub, SFsub. apply binary_normalize_not_nan.
Qed.

(** [Math.max(1.3, y)] is at least [1.3] for every number [y]. *)
Lemma Math_max_MIN_EASE_ge (y : float) :
  is_nan y = false -> (MIN_EASE <=? Math_max MIN_EASE y) = true.
Proof.
  intros Hy. unfold Math_max. rewrite Hy.
  change (is_nan MIN_EASE) with false. cbn [orb].
  destruct (MIN_EASE <? y) eqn:E; [apply ltb_leb; exact E|].
  destruct (y <? MIN_EASE); [reflexivity|].
  change (is_zero MIN_EASE) with false. reflexivity.
Qed.

(** [Math.max(1.3, y)] is below [1.3] for no [y], [NaN] included. *)
Lemma Math_max_MIN_EASE_not_below (y : float) :
  (Math_max MIN_EASE y <? MIN_EASE) = false.
Proof.
  destruct (is_nan y) eqn:Hy.
  - unfold Math_max. rewrite Hy, orb_true_r. reflexivity.
  - apply leb_not_ltb, Math_max_MIN_EASE_ge, Hy.
Qed.

Close Scope Z_scope.

(* ================================================================= *)
(** * Properties of the scheduler *)

Lemma str_eqb_eq (a b : jsstring) : str_eqb a b = true <-> a = b.
Proof.
  revert b; induction a as [|x a IH]; intros [|y b]; simpl; split;
    try congruence; try reflexivity.
  - intros H. apply andb_prop in H as [Hx Hab].
    apply N.eqb_eq in Hx. apply IH in Hab. congruence.
  - intros H. injection H as -> ->.
    rewrite N.eqb_refl. simpl. apply IH. reflexivity.
Qed.

Lemma str_eqb_neq (a b : jsstring) : a <> b -> str_eqb a b = false.
Proof.
  intros H. destruct (str_eqb a b) eqn:E; [|reflexivity].
  apply str_eqb_eq in E. contradiction.
Qed.

Section Scheduler.
Context {X : Type}.
Variables (e d r l du : float) (s : jsstring) (x : X).

(** The card whose six review properties are all present. *)
Let hydrated : Card X :=
  mkCard (Some e) (Some d) (Some r) (Some l) (Some s) (Some du) x.

(** C1. Grading a hydrated card "known" at [now] adds 1 to [reps]; sets
    [intervalDays] to 1 when the old value is [<= 0], to 3 when it equals
    1, and to [Math.round(intervalDays * ease)] with the old [ease]
    otherwise; then adds 0.05 to [ease], sets [state] to "known" and sets
    [due] to [now] plus the new [intervalDays] times 24*60*60*1000
    milliseconds.  [lapses] and the other properties are kept. *)
Theorem reviewCard_known (now : float) :
  let d' := if d <=? 0 then 1
            else if d =? 1 then 3
            else Math_round (d * e) in
  reviewCard hydrated (lit "known") now
  = mkCard (Some (e + lit_0_05)) (Some d') (Some (r + 1)) (Some l)
           (Some (lit "known")) (Some (now + d' * 24 * 60 * 60 * 1000)) x.
Proof.
  unfold reviewCard, hydrated; simpl.
  destruct (d <=? 0); [reflexivity|].
  destruct (d =? 1); reflexivity.
Qed.

(** C2. Grading a hydrated card "again" at [now] adds exactly 1 to
    [lapses], resets [reps] and [intervalDays] to 0, sets [ease] to
    [Math.max(1.3, ease - 0.2)], [state] to "learning" and [due] to
    [now + 600000] (ten minutes); every other property is unchanged. *)
Theorem reviewCard_again (now : float) :
  reviewCard hydrated (lit "again") now
  = mkCard (Some (Math_max MIN_EASE (e - lit_0_2))) (Some 0) (Some 0)
           (Some (l + 1)) (Some (lit "learning")) (Some (now + 600000)) x.
Proof.
  unfold reviewCard, hydrated. simpl.
  unfold addMinutes. reflexivity.
Qed.

(** C7. Grading a hydrated card "learning" at [now] sets [state] to
    "learning", [reps] to [Math.min(reps + 1, 2)] and [due] to
    [now + 21600000] (six hours), and leaves [ease], [intervalDays],
    [lapses] and every other property unchanged. *)
Theorem reviewCard_learning (now : float) :
  reviewCard hydrated (lit "learning") now
  = mkCard (Some e) (Some d) (Some (Math_min (r + 1) 2)) (Some l)
           (Some (lit "learning")) (Some (now + 21600000)) x.
Proof.
  unfold reviewCard, hydrated. simpl.
  unfold addHours. reflexivity.
Qed.

End Scheduler.

(** C6. An action other than "again" and "learning" (in particular one
    outside the three recognised grades) is not rejected: the card is
    graded as if the action were "known". *)
Theorem reviewCard_unrecognized_action {X : Type} (c : Card X) (action : jsstring)
    (now : float) :
  action <> lit "again" -> action <> lit "learning" -> action <> lit "known" ->
  reviewCard c action now = reviewCard c (lit "known") now.
Proof.
  intros Ha Hl _. unfold reviewCard.
  rewrite (str_eqb_neq Ha), (str_eqb_neq Hl). reflexivity.
Qed.

Lemma reviewCard_unrecognized_action_witness :
  lit "easy" <> lit "again" /\ lit "easy" <> lit "learning"
  /\ lit "easy" <> lit "known"
  /\ reviewCard (mkCard (Some 2.5) None (Some 4) None None None tt) (lit "easy") 1000
     = reviewCard (mkCard (Some 2.5) None (Some 4) None None None tt) (lit "known") 1000.
Proof.
  split; [discriminate|]. split; [discriminate|]. split; [discriminate|].
  apply reviewCard_unrecognized_action; discriminate.
Defined.

(** C8. Whatever the action and the time, a card lacking any subset of
    [ease], [intervalDays], [reps], [lapses], [state], [due] is graded
    exactly as the same card with each absent property set to its default
    (2.5, 0, 0, 0, "new", [now]). *)
Theorem reviewCard_fill_defaults {X : Type} (c : Card X) (action : jsstring)
    (now : float) :
  reviewCard c action now = reviewCard (fill_defaults c now) action now.
Proof. destruct c; reflexivity. Qed.

(** C9. For a card that carries a [due] timestamp, [isDue(card, now)] is
    the comparison [due <= now]: it is true exactly when that holds. *)
Theorem isDue_due_leb {X : Type} (e d r l : option float) (s : option jsstring)
    (du : float) (x : X) (now : float) :
  isDue (mkCard e d r l s (Some du) x) now = (du <=? now).
Proof. unfold isDue. cbn [due nullish]. reflexivity. Qed.

(** The ease after a grade, read from the three branches. *)
Lemma reviewCard_ease {X : Type} (c : Card X) (action : jsstring) (now : float) :
  ease (reviewCard c action now)
  = Some (if str_eqb action (lit "again")
          then Math_max MIN_EASE (effective_ease c - lit_0_2)
          else if str_eqb action (lit "learning") then effective_ease c
          else effective_ease c + lit_0_05).
Proof.
  destruct c as [e d r l s du x]. unfold reviewCard, effective_ease.
  cbn [ease intervalDays reps lapses state due rest set_ease set_intervalDays
       set_reps set_lapses set_state set_due num nullish].
  destruct (str_eqb action (lit "again")); [reflexivity|].
  destruct (str_eqb action (lit "learning")); [reflexivity|].
  destruct (nullish d 0 <=? 0); [reflexivity|].
  destruct (nullish d 0 =? 1); reflexivity.
Qed.

Lemma reviewCard_ease_floor {X : Type} (c : Card X) (action : jsstring) (now : float) :
  ease_floor c -> ease_floor (reviewCard c action now).
Proof.
  unfold ease_floor. intros H.
  unfold effective_ease at 1. rewrite reviewCard_ease. cbn [nullish].
  destruct (str_eqb action (lit "again")).
  - apply Math_max_MIN_EASE_ge, sub_0_2_not_nan, MIN_EASE_leb_not_nan, H.
  - destruct (str_eqb action (lit "learning")); [exact H|].
    apply MIN_EASE_add_0_05, H.
Qed.

Lemma grade_all_ease_floor {X : Type} (steps : list (jsstring * float)) :
  forall c : Card X, ease_floor c -> ease_floor (grade_all c steps).
Proof.
  induction steps as [|[a t] steps IH]; intros c H; [exact H|].
  apply IH, reviewCard_ease_floor, H.
Qed.

Lemma again_times_grade_all {X : Type} (c : Card X) (nows : list float) :
  again_times c nows = grade_all c (map (fun t => (lit "again", t)) nows).
Proof.
  revert c; induction nows as [|t nows IH]; intros c; [reflexivity|].
  apply IH.
Qed.

Lemma again_times_last {X : Type} (nows : list float) :
  forall (c : Card X) (now : float),
  exists c' t, again_times c (now :: nows) = reviewCard c' (lit "again") t.
Proof.
  induction nows as [|t nows IH]; intros c now.
  - exists c, now. reflexivity.
  - destruct (IH (reviewCard c (lit "again") now) t) as (c' & t' & E).
    exists c', t'. exact E.
Qed.

(** C3. The ease floor.  (1) After one or more consecutive "again"
    grades the ease of a card is never below 1.3, whatever the card was;
    (2) it is at least 1.3 as soon as the card's ease was a number;
    (3) a card whose ease is at least 1.3 keeps an ease of at least 1.3
    under any grade at any time; (4) hence under every sequence of
    grades. *)
Theorem ease_floor_invariant {X : Type} :
  (forall (c : Card X) (now : float) (nows : list float),
      exists e', ease (again_times c (now :: nows)) = Some e'
                 /\ (e' <? MIN_EASE) = false)
  /\ (forall (c : Card X) (now : float) (nows : list float),
      is_nan (effective_ease c) = false ->
      ease_floor (again_times c (now :: nows)))
  /\ (forall (c : Card X) (action : jsstring) (now : float),
      ease_floor c -> ease_floor (reviewCard c action now))
  /\ (forall (c : Card X) (steps : list (jsstring * float)),
      ease_floor c -> ease_floor (grade_all c steps)).
Proof.
  split; [|split; [|split]].
  - intros c now nows.
    destruct (again_times_last nows c now) as (c' & t & ->).
    rewrite reviewCard_ease. cbn [str_eqb lit].
    eexists. split; [reflexivity|]. apply Math_max_MIN_EASE_not_below.
  - intros c now nows Hnan.
    rewrite again_times_grade_all. cbn [map grade_all fold_left fst snd].
    apply (grade_all_ease_floor (map (fun t => (lit "again", t)) nows)).
    unfold ease_floor, effective_ease at 1. rewrite reviewCard_ease.
    cbn [nullish]. apply Math_max_MIN_EASE_ge, sub_0_2_not_nan, Hnan.
  - intros c action now. apply reviewCard_ease_floor.
  - intros c steps. apply grade_all_ease_floor.
Qed.

Lemma ease_floor_invariant_witness :
  ease_floor (mkCard (Some MIN_EASE) None None None None None tt)
  /\ ease_floor (grade_all (mkCard (Some MIN_EASE) None None None None None tt)
                   [(lit "again", 10); (lit "known", 20); (lit "learning", 30)]).
Proof.
  assert (H : ease_floor (mkCard (Some MIN_EASE) None None None None None tt))
    by reflexivity.
  split; [exact H|].
  exact (proj2 (proj2 (proj2 (@ease_floor_invariant unit))) _ _ H).
Defined.

(* ================================================================= *)
(** * Arrays and loops *)

Close Scope float_scope.

Lemma length_upd {A : Type} (l : list A) : forall (i : nat) (v : A),
  length (upd l i v) = length l.
Proof.
  induction l as [|x l IH]; intros [|i] v; simpl; try reflexivity.
  rewrite IH. reflexivity.
Qed.

Lemma nth_upd_eq {A : Type} (l : list A) : forall (i : nat) (v d : A),
  i < length l -> nth i (upd l i v) d = v.
Proof.
  induction l as [|x l IH]; intros [|i] v d H; simpl in *; try lia.
  - reflexivity.
  - apply IH. lia.
Qed.

Lemma nth_upd_ne {A : Type} (l : list A) : forall (i j : nat) (v d : A),
  i <> j -> nth j (upd l i v) d = nth j l d.
Proof.
  induction l as [|x l IH]; intros [|i] [|j] v d H; simpl; try reflexivity;
    try lia.
  apply IH. lia.
Qed.

Lemma upd_out_of_range {A : Type} (l : list A) : forall (i : nat) (v : A),
  length l <= i -> upd l i v = l.
Proof.
  induction l as [|x l IH]; intros [|i] v H; simpl in *; try reflexivity;
    try lia.
  rewrite IH by lia. reflexivity.
Qed.

Lemma Forall_upd {A : Type} (P : A -> Prop) (l : list A) : forall (i : nat) (v : A),
  Forall P l -> P v -> Forall P (upd l i v).
Proof.
  induction l as [|x l IH]; intros [|i] v Hl Hv; simpl; try assumption.
  - inversion Hl; subst. constructor; assumption.
  - inversion Hl; subst. constructor; [assumption|]. apply IH; assumption.
Qed.

Lemma table_ok_row (n m : nat) (dp : list (list nat)) (i : nat) :
  table_ok n m dp -> i <= n -> length (nth i dp []) = m + 1.
Proof.
  intros [Hlen Hrows] Hi. rewrite Forall_forall in Hrows.
  apply Hrows. apply nth_In. lia.
Qed.

Lemma table_ok_repeat (n m : nat) :
  table_ok n m (repeat (repeat 0 (m + 1)) (n + 1)).
Proof.
  split; [apply repeat_length|].
  apply Forall_forall. intros row Hin.
  apply repeat_spec in Hin. subst row. apply repeat_length.
Qed.

Lemma table_ok_put (n m : nat) (dp : list (list nat)) (i j v : nat) :
  table_ok n m dp -> i <= n -> table_ok n m (put dp i j v).
Proof.
  intros H Hi. pose proof (table_ok_row H Hi) as Hrow.
  destruct H as [Hlen Hrows]. unfold put. split.
  - rewrite length_upd. exact Hlen.
  - apply Forall_upd; [exact Hrows|]. rewrite length_upd. exact Hrow.
Qed.

Lemma get_put_eq (n m : nat) (dp : list (list nat)) (i j v : nat) :
  table_ok n m dp -> i <= n -> j <= m -> get (put dp i j v) i j = v.
Proof.
  intros H Hi Hj. pose proof (table_ok_row H Hi) as Hrow.
  destruct H as [Hlen _]. unfold get, put.
  rewrite nth_upd_eq by lia. apply nth_upd_eq. lia.
Qed.

Lemma get_put_ne (dp : list (list nat)) (i j v i' j' : nat) :
  i <> i' \/ j <> j' -> get (put dp i j v) i' j' = get dp i' j'.
Proof.
  intros H. unfold get, put.
  destruct (Nat.eq_dec i i') as [<-|Hii].
  - destruct H as [H|H]; [contradiction|].
    destruct (Nat.lt_ge_cases i (length dp)) as [Hlt|Hge].
    + rewrite nth_upd_eq by assumption. apply nth_upd_ne. exact H.
    + rewrite upd_out_of_range by assumption. reflexivity.
  - rewrite nth_upd_ne by assumption. reflexivity.
Qed.

(** The invariant rule of the counting loop. *)
Lemma for_loop_invariant {St : Type} (P : nat -> St -> Prop) (lo hi : nat)
    (body : nat -> St -> St) (s : St) :
  lo <= hi + 1 ->
  P lo s ->
  (forall i s', lo <= i <= hi -> P i s' -> P (i + 1) (body i s')) ->
  P (hi + 1) (for_loop lo hi body s).
Proof.
  intros Hle H0 Hstep. unfold for_loop.
  remember (hi + 1 - lo) as k eqn:Hk.
  replace (hi + 1) with (lo + k) by lia.
  assert (Hb : forall i, lo <= i < lo + k -> i <= hi) by (intros; lia).
  clear Hk Hle. revert lo s H0 Hstep Hb.
  induction k as [|k IH]; intros lo s H0 Hstep Hb; simpl.
  - rewrite Nat.add_0_r. exact H0.
  - replace (lo + S k) with (S lo + k) by lia.
    apply IH.
    + replace (S lo) with (lo + 1) by lia. apply Hstep; [|exact H0].
      split; [lia|]. apply Hb. lia.
    + intros i s' Hi. apply Hstep. lia.
    + intros i Hi. apply Hb. lia.
Qed.

(* ================================================================= *)
(** * The table of [levenshtein] holds the recurrence *)

Lemma lev_rec_0_r (s t : jsstring) (i : nat) : lev_rec s t i 0 = i.
Proof. destruct i; reflexivity. Qed.

Lemma lev_rec_S_S (s t : jsstring) (i j : nat) :
  lev_rec s t (S i) (S j)
  = min3 (lev_rec s t i (S j) + 1) (lev_rec s t (S i) j + 1)
         (lev_rec s t i j + subst_cost s t i j).
Proof. reflexivity. Qed.

Section Table.
Variables (s t : jsstring) (n m : nat).

(** The three loops of [levenshtein], from the zero-filled table. *)
Let init_rows (dp : list (list nat)) := for_loop 0 n (fun i dp => put dp i 0 i) dp.
Let init_cols (dp : list (list nat)) := for_loop 0 m (fun j dp => put dp 0 j j) dp.
Let inner (i : nat) (dp : list (list nat)) :=
  for_loop 1 m (fun j dp =>
    let cost :=
      if unit_eqb (nth_error s (i - 1)) (nth_error t (j - 1)) then 0 else 1 in
    put dp i j
      (min3 (get dp (i - 1) j + 1) (get dp i (j - 1) + 1)
            (get dp (i - 1) (j - 1) + cost))) dp.
Let fill (dp : list (list nat)) := for_loop 1 n inner dp.

Lemma init_rows_spec (dp : list (list nat)) :
  table_ok n m dp ->
  table_ok n m (init_rows dp) /\
  forall i, i <= n -> get (init_rows dp) i 0 = i.
Proof.
  intros Hok.
  pose (P := fun (k : nat) (dp : list (list nat)) =>
    table_ok n m dp /\ forall i, i < k -> get dp i 0 = i).
  assert (H : P (n + 1) (init_rows dp)).
  { apply for_loop_invariant; [lia| |].
    - split; [exact Hok|]. intros i Hi. lia.
    - intros i dp' Hi [Hok' Hcol]. split.
      + apply table_ok_put; [exact Hok'|lia].
      + intros i' Hi'. destruct (Nat.eq_dec i i') as [<-|Hne].
        * apply get_put_eq with (n := n) (m := m); [exact Hok'|lia|lia].
        * rewrite get_put_ne by (left; exact Hne). apply Hcol. lia. }
  destruct H as [H1 H2]. split; [exact H1|].
  intros i Hi. apply H2. lia.
Qed.

Lemma init_cols_spec (dp : list (list nat)) :
  table_ok n m dp ->
  (forall i, i <= n -> get dp i 0 = i) ->
  table_ok n m (init_cols dp) /\
  (forall i, i <= n -> get (init_cols dp) i 0 = i) /\
  (forall j, j <= m -> get (init_cols dp) 0 j = j).
Proof.
  intros Hok Hcol0.
  pose (P := fun (k : nat) (dp : list (list nat)) =>
    table_ok n m dp /\ (forall i, i <= n -> get dp i 0 = i)
    /\ forall j, j < k -> get dp 0 j = j).
  assert (H : P (m + 1) (init_cols dp)).
  { apply for_loop_invariant; [lia| |].
    - split; [exact Hok|]. split; [exact Hcol0|]. intros j Hj. lia.
    - intros j dp' Hj (Hok' & Hcol & Hrow). split; [|split].
      + apply table_ok_put; [exact Hok'|lia].
      + intros i Hi.
        destruct (Nat.eq_dec 0 i) as [<-|Hi0];
          [destruct (Nat.eq_dec j 0) as [->|Hj0]|].
        * apply get_put_eq with (n := n) (m := m); [exact Hok'|lia|lia].
        * rewrite get_put_ne by (right; exact Hj0). apply Hcol. lia.
        * rewrite get_put_ne by (left; exact Hi0). apply Hcol. exact Hi.
      + intros j' Hj'. destruct (Nat.eq_dec j j') as [<-|Hne].
        * apply get_put_eq with (n := n) (m := m); [exact Hok'|lia|lia].
        * rewrite get_put_ne by (right; exact Hne). apply Hrow. lia. }
  destruct H as (H1 & H2 & H3). split; [exact H1|]. split; [exact H2|].
  intros j Hj. apply H3. lia.
Qed.

(** The rows above [k] hold the recurrence, and so does column 0. *)
Let rows_done (k : nat) (dp : list (list nat)) : Prop :=
  table_ok n m dp /\
  (forall i, i <= n -> get dp i 0 = i) /\
  (forall i j, i < k -> i <= n -> j <= m -> get dp i j = lev_rec s t i j).

Lemma inner_spec (i : nat) (dp : list (list nat)) :
  1 <= i <= n -> rows_done i dp -> rows_done (i + 1) (inner i dp).
Proof.
  intros Hi (Hok & Hcol & Hrows).
  pose (P := fun (k : nat) (dp : list (list nat)) =>
    rows_done i dp /\ forall j, j < k -> get dp i j = lev_rec s t i j).
  assert (H : P (m + 1) (inner i dp)).
  { apply for_loop_invariant; [lia| |].
    - split; [split; [exact Hok|split; [exact Hcol|exact Hrows]]|].
      intros j Hj. replace j with 0 by lia.
      rewrite lev_rec_0_r. apply Hcol. lia.
    - intros j dp' Hj ((Hok' & Hcol' & Hrows') & Hcur).
      assert (Hv : min3 (get dp' (i - 1) j + 1) (get dp' i (j - 1) + 1)
                     (get dp' (i - 1) (j - 1)
                      + (if unit_eqb (nth_error s (i - 1)) (nth_error t (j - 1))
                         then 0 else 1))
                   = lev_rec s t i j).
      { destruct i as [|i']; [lia|]. destruct j as [|j']; [lia|].
        rewrite lev_rec_S_S. cbn [Nat.sub]. rewrite !Nat.sub_0_r.
        rewrite (Hrows' i' (S j')), (Hrows' i' j'), (Hcur j') by lia.
        reflexivity. }
      cbv zeta. rewrite Hv.
      split; [split; [|split]|].
      + apply table_ok_put; [exact Hok'|lia].
      + intros i0 Hi0. rewrite get_put_ne by (right; lia). apply Hcol'. exact Hi0.
      + intros i0 j0 Hi0 Hi0' Hj0. rewrite get_put_ne by (left; lia).
        apply Hrows'; assumption.
      + intros j0 Hj0. destruct (Nat.eq_dec j j0) as [<-|Hne].
        * apply get_put_eq with (n := n) (m := m); [exact Hok'|lia|lia].
        * rewrite get_put_ne by (right; exact Hne). apply Hcur. lia. }
  destruct H as ((Hok' & Hcol' & Hrows') & Hcur).
  split; [exact Hok'|]. split; [exact Hcol'|].
  intros i0 j0 Hi0 Hi0' Hj0.
  destruct (Nat.eq_dec i0 i) as [->|Hne].
  - apply Hcur. lia.
  - apply Hrows'; lia.
Qed.

Lemma fill_spec (dp : list (list nat)) :
  rows_done 1 dp -> rows_done (n + 1) (fill dp).
Proof.
  intros H. unfold fill.
  apply (for_loop_invariant rows_done); [lia|exact H|].
  intros i dp' Hi Hdone. apply inner_spec; assumption.
Qed.

(** After the three loops every cell holds the recurrence. *)
Lemma table_filled (i j : nat) :
  i <= n -> j <= m ->
  get (fill (init_cols (init_rows (repeat (repeat 0 (m + 1)) (n + 1))))) i j
  = lev_rec s t i j.
Proof.
  intros Hi Hj.
  destruct (init_rows_spec (table_ok_repeat n m)) as [Hok1 Hcol1].
  destruct (init_cols_spec Hok1 Hcol1) as (Hok2 & Hcol2 & Hrow2).
  assert (H1 : rows_done 1 (init_cols (init_rows (repeat (repeat 0 (m + 1)) (n + 1))))).
  { split; [exact Hok2|]. split; [exact Hcol2|].
    intros i0 j0 Hi0 _ Hj0. replace i0 with 0 by lia.
    apply Hrow2. exact Hj0. }
  apply fill_spec in H1. destruct H1 as (_ & _ & Hrows).
  apply Hrows; lia.
Qed.

End Table.

(* ================================================================= *)
(** * Properties of the matcher *)

Lemma removeWhiteSpace_no_ws (s : jsstring) : no_ws (removeWhiteSpace s).
Proof.
  apply Forall_forall. intros c Hin.
  apply filter_In in Hin as [_ Hc].
  destruct (isWhiteSpace c); [discriminate|reflexivity].
Qed.

Lemma removeWhiteSpace_id (s : jsstring) : no_ws s -> removeWhiteSpace s = s.
Proof.
  induction 1 as [|c s Hc _ IH]; [reflexivity|].
  unfold removeWhiteSpace in *. simpl. rewrite Hc. simpl. rewrite IH. reflexivity.
Qed.

Lemma trimStart_id (s : jsstring) : no_ws s -> trimStart s = s.
Proof. intros [|c s' Hc _]; [reflexivity|]. simpl. rewrite Hc. reflexivity. Qed.

Lemma trim_id (s : jsstring) : no_ws s -> trim s = s.
Proof.
  intros H. unfold trim, trimEnd.
  rewrite (trimStart_id H), trimStart_id by (apply Forall_rev; exact H).
  apply rev_involutive.
Qed.

Lemma asciiToLowerCase_nil : asciiToLowerCase [] = [].
Proof. reflexivity. Qed.

Lemma asciiToLowerCase_unit_idem (c : N) :
  let f := fun c => if ((65 <=? c) && (c <=? 90))%N then (c + 32)%N else c in
  f (f c) = f c.
Proof.
  cbv beta zeta.
  destruct ((65 <=? c) && (c <=? 90))%N eqn:E; cbv iota;
    [|rewrite E; reflexivity].
  apply andb_prop in E as [H1 H2]. apply N.leb_le in H1, H2.
  replace (c + 32 <=? 90)%N with false by (symmetry; apply N.leb_gt; lia).
  rewrite andb_false_r. reflexivity.
Qed.

Lemma asciiToLowerCase_idem (s : jsstring) :
  asciiToLowerCase (asciiToLowerCase s) = asciiToLowerCase s.
Proof.
  unfold asciiToLowerCase. rewrite map_map. apply map_ext.
  intros c. apply asciiToLowerCase_unit_idem.
Qed.

Lemma lower_letter_not_white (c : N) :
  (97 <= c <= 122)%N -> isWhiteSpace c = false.
Proof.
  intros H. apply not_true_is_false. unfold isWhiteSpace.
  rewrite !orb_true_iff, !andb_true_iff, !N.leb_le, !N.eqb_eq. lia.
Qed.

Lemma asciiToLowerCase_no_ws (s : jsstring) :
  no_ws s -> no_ws (asciiToLowerCase s).
Proof.
  unfold no_ws, asciiToLowerCase. intros H. apply Forall_map.
  apply (Forall_impl _ (P := fun c => isWhiteSpace c = false)); [|exact H].
  intros c Hc.
  destruct ((65 <=? c) && (c <=? 90))%N eqn:E; [|exact Hc].
  apply andb_prop in E as [H1 H2]. apply N.leb_le in H1, H2.
  apply lower_letter_not_white. lia.
Qed.

(** ** The recurrence is the least cost of an edit script *)

Lemma min3_cases (a b c : nat) :
  (min3 a b c = a /\ a <= b /\ a <= c)
  \/ (min3 a b c = b /\ b <= a /\ b <= c)
  \/ (min3 a b c = c /\ c <= a /\ c <= b).
Proof. unfold min3. lia. Qed.

Lemma lev_rec_app (s s2 t t2 : jsstring) (i : nat) : forall j,
  i <= length s -> j <= length t ->
  lev_rec (s ++ s2) (t ++ t2) i j = lev_rec s t i j.
Proof.
  induction i as [|i IHi]; intros j Hi Hj; [reflexivity|].
  induction j as [|j IHj]; [reflexivity|].
  rewrite !lev_rec_S_S, IHj, !IHi by lia.
  unfold subst_cost. rewrite !nth_error_app1 by lia. reflexivity.
Qed.

Lemma lev_rec_delete_le (s t : jsstring) (i j : nat) :
  lev_rec s t (S i) j <= lev_rec s t i j + 1.
Proof.
  destruct j as [|j]; [rewrite !lev_rec_0_r; lia|].
  rewrite lev_rec_S_S. unfold min3. lia.
Qed.

Lemma lev_rec_insert_le (s t : jsstring) (i j : nat) :
  lev_rec s t i (S j) <= lev_rec s t i j + 1.
Proof.
  destruct i as [|i]; [simpl; lia|].
  rewrite lev_rec_S_S. unfold min3. lia.
Qed.

Lemma lev_rec_snoc (s t : jsstring) (x y : N) :
  lev_rec (s ++ [x]) (t ++ [y]) (S (length s)) (S (length t))
  <= lev_rec s t (length s) (length t) + (if N.eqb x y then 0 else 1).
Proof.
  rewrite lev_rec_S_S.
  rewrite (@lev_rec_app s [x] t [y] (length s) (length t)) by lia.
  unfold subst_cost.
  rewrite !nth_error_app2, !Nat.sub_diag by lia. cbn [nth_error unit_eqb].
  unfold min3. lia.
Qed.

Lemma alignment_lower_bound (s t : jsstring) (k : nat) :
  alignment s t k -> lev_distance s t <= k.
Proof.
  unfold lev_distance.
  induction 1 as [|s t k x _ IH|s t k y _ IH|s t k x _ IH|s t k x y _ IH].
  - simpl. lia.
  - rewrite length_app, Nat.add_1_r.
    pose proof (lev_rec_delete_le (s ++ [x]) t (length s) (length t)) as H.
    rewrite <- (app_nil_r t) in H at 2 3.
    rewrite (@lev_rec_app s [x] t [] (length s) (length t)) in H by lia.
    rewrite app_nil_r in H. lia.
  - rewrite length_app, Nat.add_1_r.
    pose proof (lev_rec_insert_le s (t ++ [y]) (length s) (length t)) as H.
    rewrite <- (app_nil_r s) in H at 2 3.
    rewrite (@lev_rec_app s [] t [y] (length s) (length t)) in H by lia.
    rewrite app_nil_r in H. lia.
  - rewrite !length_app, !Nat.add_1_r.
    pose proof (lev_rec_snoc s t x x) as H. rewrite N.eqb_refl in H. lia.
  - rewrite !length_app, !Nat.add_1_r.
    pose proof (lev_rec_snoc s t x y) as H. destruct (N.eqb x y); lia.
Qed.

Lemma firstn_S_snoc (s : jsstring) (i : nat) (x : N) :
  nth_error s i = Some x -> firstn (S i) s = firstn i s ++ [x].
Proof.
  revert i; induction s as [|c s IH]; intros [|i] H; simpl in *;
    try discriminate.
  - injection H as ->. reflexivity.
  - rewrite (IH i H). reflexivity.
Qed.

Lemma alignment_prefixes (s t : jsstring) (i : nat) : forall j,
  i <= length s -> j <= length t ->
  alignment (firstn i s) (firstn j t) (lev_rec s t i j).
Proof.
  induction i as [|i IHi].
  - intros j _. induction j as [|j IHj]; intros Hj; [apply al_nil|].
    destruct (nth_error t j) as [y|] eqn:Ey;
      [|apply nth_error_None in Ey; lia].
    rewrite (@firstn_S_snoc _ _ _ Ey).
    apply (al_insert (s := firstn 0 s)). apply IHj. lia.
  - intros j Hi.
    destruct (nth_error s i) as [x|] eqn:Ex;
      [|apply nth_error_None in Ex; lia].
    rewrite (@firstn_S_snoc _ _ _ Ex).
    induction j as [|j IHj]; intros Hj.
    + rewrite lev_rec_0_r. apply (al_delete (t := firstn 0 t)).
      pose proof (IHi 0 ltac:(lia) ltac:(lia)) as H.
      rewrite lev_rec_0_r in H. exact H.
    + destruct (nth_error t j) as [y|] eqn:Ey;
        [|apply nth_error_None in Ey; lia].
      rewrite (@firstn_S_snoc _ _ _ Ey), lev_rec_S_S.
      destruct (min3_cases (lev_rec s t i (S j) + 1) (lev_rec s t (S i) j + 1)
                  (lev_rec s t i j + subst_cost s t i j))
        as [(-> & _)|[(-> & _)|(-> & _)]].
      * rewrite Nat.add_1_r, <- (@firstn_S_snoc _ _ _ Ey).
        apply al_delete. apply IHi; lia.
      * rewrite Nat.add_1_r. apply al_insert. apply IHj. lia.
      * unfold subst_cost. rewrite Ex, Ey. cbn [unit_eqb].
        destruct (N.eqb_spec x y) as [<-|_].
        -- rewrite Nat.add_0_r. apply al_keep. apply IHi; lia.
        -- rewrite Nat.add_1_r. apply al_substitute. apply IHi; lia.
Qed.

Lemma alignment_lev_distance (s t : jsstring) :
  alignment s t (lev_distance s t).
Proof.
  pose proof (@alignment_prefixes s t (length s) (length t)
                (Nat.le_refl _) (Nat.le_refl _)) as H.
  rewrite !firstn_all in H. exact H.
Qed.


Section MatcherFacts.

Variable toLowerCase : jsstring -> jsstring.

(** What the proofs use of the engine's lower-casing: the empty string is
    kept, lower-casing twice is lower-casing once, and no white space
    appears in the result when the argument has none. *)
Hypothesis toLowerCase_nil : toLowerCase [] = [].
Hypothesis toLowerCase_idem :
  forall s, toLowerCase (toLowerCase s) = toLowerCase s.
Hypothesis toLowerCase_no_ws : forall s, no_ws s -> no_ws (toLowerCase s).

Local Abbreviation norm := (normalizeAnswer toLowerCase).

Lemma levenshtein_lev_distance (a b : jsstring) :
  levenshtein toLowerCase a b = lev_distance (norm a) (norm b).
Proof.
  unfold levenshtein, lev_distance.
  set (s := norm a). set (t := norm b). cbv zeta.
  destruct (length s =? 0) eqn:En.
  - apply Nat.eqb_eq in En. rewrite En. reflexivity.
  - destruct (length t =? 0) eqn:Em.
    + apply Nat.eqb_eq in Em. rewrite Em, lev_rec_0_r. reflexivity.
    + apply table_filled; lia.
Qed.

Lemma normalizeAnswer_nil : norm [] = [].
Proof. exact toLowerCase_nil. Qed.

Lemma normalizeAnswer_no_ws (s : jsstring) : no_ws (norm s).
Proof. apply toLowerCase_no_ws, removeWhiteSpace_no_ws. Qed.

Lemma normalizeAnswer_idem (s : jsstring) :
  norm (norm s) = norm s.
Proof.
  pose proof (normalizeAnswer_no_ws s) as H.
  unfold normalizeAnswer at 1.
  rewrite (trim_id H), (removeWhiteSpace_id H).
  apply toLowerCase_idem.
Qed.

Lemma isCloseMatch_spec (typed answer : jsstring) :
  isCloseMatch toLowerCase typed answer = true <->
  norm typed <> [] /\
  (norm typed = norm answer \/
   lev_distance (norm typed) (norm answer)
   <= tolerance (norm answer)).
Proof.
  unfold isCloseMatch. cbv zeta.
  rewrite levenshtein_lev_distance, !normalizeAnswer_idem.
  fold (tolerance (norm answer)).
  set (t := norm typed). set (a := norm answer).
  destruct t as [|c t'] eqn:Et.
  - split; [discriminate|]. intros [H _]. contradiction.
  - rewrite <- Et. destruct (str_eqb t a) eqn:E.
    + apply str_eqb_eq in E. split; [|reflexivity].
      intros _. split; [rewrite Et; discriminate|left; exact E].
    + rewrite Nat.leb_le. split.
      * intros H. split; [rewrite Et; discriminate|right; exact H].
      * intros [_ [H|H]]; [|exact H].
        apply str_eqb_eq in H. congruence.
Qed.

(** C5. [levenshtein(a, b)] is the Levenshtein distance of the two
    normalised strings [s] and [t]: the value [D n m] of the recurrence
    [D i 0 = i], [D 0 j = j],
    [D i j = min (D (i-1) j + 1) (D i (j-1) + 1) (D (i-1) (j-1) + cost)]
    with [cost = 0] when [s[i-1]] equals [t[j-1]] and 1 otherwise, at
    [n = s.length] and [m = t.length]; it is the cost of an edit script
    from [s] to [t] (insertions, deletions and substitutions costing 1
    each), and no edit script costs less. *)
Theorem levenshtein_is_recurrence (a b : jsstring) :
  let s := norm a in
  let t := norm b in
  levenshtein toLowerCase a b = lev_rec s t (length s) (length t)
  /\ (forall i, lev_rec s t i 0 = i)
  /\ (forall j, lev_rec s t 0 j = j)
  /\ (forall i j,
        lev_rec s t (S i) (S j)
        = min3 (lev_rec s t i (S j) + 1)
               (lev_rec s t (S i) j + 1)
               (lev_rec s t i j
                + (if unit_eqb (nth_error s i) (nth_error t j) then 0 else 1)))
  /\ alignment s t (levenshtein toLowerCase a b)
  /\ (forall k, alignment s t k -> levenshtein toLowerCase a b <= k).
Proof.
  cbv zeta. rewrite levenshtein_lev_distance.
  split; [reflexivity|].
  split; [intros i; apply lev_rec_0_r|].
  split; [reflexivity|].
  split; [intros i j; apply lev_rec_S_S|].
  split; [apply alignment_lev_distance|].
  intros k. apply alignment_lower_bound.
Qed.

(** C4. [isCloseMatch(typed, answer)] is true exactly when the
    normalised typed string is not empty and either equals the normalised
    answer or is within the tolerance of it in Levenshtein distance, the
    tolerance being 2 for a normalised answer of length 6 or more and 1
    otherwise; and the empty typed string matches no answer. *)
Theorem isCloseMatch_iff (typed answer : jsstring) :
  (isCloseMatch toLowerCase typed answer = true <->
   norm typed <> [] /\
   (norm typed = norm answer \/
    lev_distance (norm typed) (norm answer)
    <= (if 6 <=? length (norm answer) then 2 else 1)))
  /\ isCloseMatch toLowerCase [] answer = false.
Proof.
  split; [apply isCloseMatch_spec|].
  unfold isCloseMatch. cbv zeta. rewrite normalizeAnswer_nil. reflexivity.
Qed.

(** C10. When the answer normalises to the empty string, every typed
    string that normalises to a single code unit is a close match. *)
Theorem isCloseMatch_blank_answer (typed answer : jsstring) :
  norm answer = [] -> length (norm typed) = 1 ->
  isCloseMatch toLowerCase typed answer = true.
Proof.
  intros Ha Ht. apply isCloseMatch_spec. rewrite Ha.
  split; [intros E; rewrite E in Ht; discriminate|].
  right. unfold lev_distance. rewrite Ht. apply Nat.le_refl.
Qed.

End MatcherFacts.

Lemma isCloseMatch_iff_witness :
  isCloseMatch asciiToLowerCase (lit " Kat") (lit "cat ") = true
  /\ isCloseMatch asciiToLowerCase [] (lit "cat ") = false.
Proof.
  pose proof (@isCloseMatch_iff asciiToLowerCase asciiToLowerCase_nil
                asciiToLowerCase_idem asciiToLowerCase_no_ws
                (lit " Kat") (lit "cat ")) as [H1 H2].
  split; [|exact H2].
  apply H1. split; [discriminate|]. right. vm_compute. lia.
Defined.

Lemma isCloseMatch_blank_answer_witness :
  isCloseMatch asciiToLowerCase (lit " Q ") (lit "  ") = true.
Proof.
  apply (@isCloseMatch_blank_answer asciiToLowerCase asciiToLowerCase_idem
           asciiToLowerCase_no_ws);
    reflexivity.
Defined.

Lemma levenshtein_is_recurrence_witness :
  alignment (([] ++ [97%N]) ++ [98%N]) ([] ++ [98%N]) 1
  /\ levenshtein asciiToLowerCase (lit "ab") (lit "B") <= 1.
Proof.
  assert (H : alignment (([] ++ [97%N]) ++ [98%N]) ([] ++ [98%N]) 1).
  { apply al_keep. apply (al_delete (t := [])). apply al_nil. }
  split; [exact H|].
  exact (proj2 (proj2 (proj2 (proj2 (proj2
    (@levenshtein_is_recurrence asciiToLowerCase (lit "ab") (lit "B"))))))
    1 H).
Defined.

(* ================================================================= *)
(** * Further properties of the matcher *)

Lemma removeWhiteSpace_trimStart (s : jsstring) :
  removeWhiteSpace (trimStart s) = removeWhiteSpace s.
Proof.
  induction s as [|c s IH]; [reflexivity|]. simpl.
  destruct (isWhiteSpace c) eqn:E; simpl; [exact IH|].
  rewrite E. reflexivity.
Qed.

Lemma removeWhiteSpace_rev (s : jsstring) :
  removeWhiteSpace (rev s) = rev (removeWhiteSpace s).
Proof. apply filter_rev. Qed.

Lemma removeWhiteSpace_trim (s : jsstring) :
  removeWhiteSpace (trim s) = removeWhiteSpace s.
Proof.
  unfold trim, trimEnd.
  rewrite removeWhiteSpace_rev, removeWhiteSpace_trimStart,
    removeWhiteSpace_rev, rev_involutive.
  apply removeWhiteSpace_trimStart.
Qed.

Lemma removeWhiteSpace_insert (u v : jsstring) (c : N) :
  isWhiteSpace c = true ->
  removeWhiteSpace (u ++ c :: v) = removeWhiteSpace (u ++ v).
Proof.
  intros H. unfold removeWhiteSpace. rewrite !filter_app. simpl.
  rewrite H. reflexivity.
Qed.

Lemma alignment_sym (s t : jsstring) (k : nat) :
  alignment s t k -> alignment t s k.
Proof.
  induction 1 as [|s t k x _ IH|s t k y _ IH|s t k x _ IH|s t k x y _ IH].
  - apply al_nil.
  - apply al_insert, IH.
  - apply al_delete, IH.
  - apply al_keep, IH.
  - apply al_substitute, IH.
Qed.

Lemma alignment_refl (s : jsstring) : alignment s s 0.
Proof.
  induction s as [|x s IH] using rev_ind; [apply al_nil|].
  apply al_keep, IH.
Qed.

Lemma alignment_zero_eq (s t : jsstring) (k : nat) :
  alignment s t k -> k = 0 -> s = t.
Proof.
  induction 1 as [|s t k x _ IH|s t k y _ IH|s t k x _ IH|s t k x y _ IH];
    intros Hk; try discriminate; [reflexivity|].
  rewrite (IH Hk). reflexivity.
Qed.

Lemma alignment_length_gap (s t : jsstring) (k : nat) :
  alignment s t k -> length s <= length t + k /\ length t <= length s + k.
Proof.
  induction 1 as [|s t k x _ IH|s t k y _ IH|s t k x _ IH|s t k x y _ IH];
    rewrite ?length_app; simpl; lia.
Qed.

Lemma lev_rec_le_max (s t : jsstring) (i : nat) : forall j,
  lev_rec s t i j <= Nat.max i j.
Proof.
  induction i as [|i IHi]; intros j; [simpl; lia|].
  destruct j as [|j]; [rewrite lev_rec_0_r; lia|].
  rewrite lev_rec_S_S. specialize (IHi j).
  unfold min3, subst_cost. destruct (unit_eqb _ _); lia.
Qed.

(** One more step of the second script after a deletion of its last
    source unit. *)
Lemma alignment_compose_delete (t u : jsstring) (k2 : nat) (y : N) :
  (forall s k1, alignment s t k1 ->
                exists k, alignment s u k /\ k <= k1 + k2) ->
  forall s k1, alignment s (t ++ [y]) k1 ->
               exists k, alignment s u k /\ k <= k1 + S k2.
Proof.
  intros IH s k1 H1. remember (t ++ [y]) as T eqn:ET.
  induction H1 as [|s0 t0 k x H1 IH1|s0 t0 k y0 H1 _|s0 t0 k x H1 _
                   |s0 t0 k x y0 H1 _].
  - symmetry in ET. apply app_eq_nil in ET as [_ ET]. discriminate.
  - destruct (IH1 ET) as (k' & Hk' & Hle).
    exists (S k'). split; [apply al_delete, Hk'|lia].
  - apply app_inj_tail in ET as [-> ->].
    destruct (IH _ _ H1) as (k' & Hk' & Hle). exists k'. split; [exact Hk'|lia].
  - apply app_inj_tail in ET as [-> ->].
    destruct (IH _ _ H1) as (k' & Hk' & Hle).
    exists (S k'). split; [apply al_delete, Hk'|lia].
  - apply app_inj_tail in ET as [-> ->].
    destruct (IH _ _ H1) as (k' & Hk' & Hle).
    exists (S k'). split; [apply al_delete, Hk'|lia].
Qed.

(** One more step of the second script that turns its last source unit
    [y] into [z], at cost [c2] (0 only when they are equal). *)
Lemma alignment_compose_match (t u : jsstring) (k2 c2 : nat) (y z : N) :
  (c2 = 0 -> y = z) -> c2 <= 1 ->
  (forall s k1, alignment s t k1 ->
                exists k, alignment s u k /\ k <= k1 + k2) ->
  forall s k1, alignment s (t ++ [y]) k1 ->
               exists k, alignment s (u ++ [z]) k /\ k <= k1 + (k2 + c2).
Proof.
  intros Hc Hc1 IH s k1 H1. remember (t ++ [y]) as T eqn:ET.
  induction H1 as [|s0 t0 k x H1 IH1|s0 t0 k y0 H1 _|s0 t0 k x H1 _
                   |s0 t0 k x y0 H1 _].
  - symmetry in ET. apply app_eq_nil in ET as [_ ET]. discriminate.
  - destruct (IH1 ET) as (k' & Hk' & Hle).
    exists (S k'). split; [apply al_delete, Hk'|lia].
  - apply app_inj_tail in ET as [-> ->].
    destruct (IH _ _ H1) as (k' & Hk' & Hle).
    exists (S k'). split; [apply al_insert, Hk'|lia].
  - apply app_inj_tail in ET as [-> ->].
    destruct (IH _ _ H1) as (k' & Hk' & Hle).
    destruct (N.eq_dec y z) as [<-|Hne].
    + exists k'. split; [apply al_keep, Hk'|lia].
    + exists (S k'). split; [apply al_substitute, Hk'|].
      assert (c2 <> 0) by (intros E; apply Hne, Hc, E). lia.
  - apply app_inj_tail in ET as [-> ->].
    destruct (IH _ _ H1) as (k' & Hk' & Hle).
    exists (S k'). split; [apply al_substitute, Hk'|lia].
Qed.

Lemma alignment_trans (t u : jsstring) (k2 : nat) :
  alignment t u k2 ->
  forall s k1, alignment s t k1 -> exists k, alignment s u k /\ k <= k1 + k2.
Proof.
  induction 1 as [|t u k2 y _ IH|t u k2 z _ IH|t u k2 y _ IH|t u k2 y z _ IH].
  - intros s k1 H1. exists k1. split; [exact H1|lia].
  - apply alignment_compose_delete, IH.
  - intros s k1 H1. destruct (IH _ _ H1) as (k' & Hk' & Hle).
    exists (S k'). split; [apply al_insert, Hk'|lia].
  - intros s k1 H1.
    destruct (@alignment_compose_match t u k2 0 y y (fun _ => eq_refl)
                ltac:(lia) IH s k1 H1) as (k' & Hk' & Hle).
    exists k'. split; [exact Hk'|lia].
  - intros s k1 H1.
    destruct (@alignment_compose_match t u k2 1 y z
                ltac:(discriminate) ltac:(lia) IH s k1 H1) as (k' & Hk' & Hle).
    exists k'. split; [exact Hk'|lia].
Qed.

Lemma lev_distance_sym (s t : jsstring) : lev_distance s t = lev_distance t s.
Proof.
  apply Nat.le_antisymm; apply alignment_lower_bound, alignment_sym,
    alignment_lev_distance.
Qed.

Lemma lev_distance_zero (s t : jsstring) : lev_distance s t = 0 <-> s = t.
Proof.
  split.
  - intros H. apply (alignment_zero_eq (alignment_lev_distance s t) H).
  - intros <-. pose proof (alignment_lower_bound (alignment_refl s)). lia.
Qed.

Lemma lev_distance_triangle (s t u : jsstring) :
  lev_distance s u <= lev_distance s t + lev_distance t u.
Proof.
  destruct (alignment_trans (alignment_lev_distance t u)
              (alignment_lev_distance s t)) as (k & Hk & Hle).
  pose proof (alignment_lower_bound Hk). lia.
Qed.

Lemma lev_distance_bounds (s t : jsstring) :
  length s - length t <= lev_distance s t
  /\ length t - length s <= lev_distance s t
  /\ lev_distance s t <= Nat.max (length s) (length t).
Proof.
  pose proof (alignment_length_gap (alignment_lev_distance s t)) as [H1 H2].
  pose proof (lev_rec_le_max s t (length s) (length t)) as H3.
  unfold lev_distance in *. lia.
Qed.

Section MatcherExtras.

Variable toLowerCase : jsstring -> jsstring.

Hypothesis toLowerCase_idem :
  forall s, toLowerCase (toLowerCase s) = toLowerCase s.
Hypothesis toLowerCase_no_ws : forall s, no_ws s -> no_ws (toLowerCase s).

Local Abbreviation norm := (normalizeAnswer toLowerCase).
Local Abbreviation lev := (levenshtein toLowerCase).
Local Abbreviation close := (isCloseMatch toLowerCase).

(** X1. White space is ignored wherever it stands: [normalizeAnswer]
    is the lower-casing of the string without its white space (the
    [trim] is redundant), and inserting a white-space unit anywhere in an
    argument changes neither [normalizeAnswer], nor [levenshtein], nor
    [isCloseMatch]. *)
Theorem white_space_is_ignored (u v other : jsstring) (c : N) :
  isWhiteSpace c = true ->
  norm (u ++ v) = toLowerCase (removeWhiteSpace (u ++ v))
  /\ norm (u ++ c :: v) = norm (u ++ v)
  /\ lev (u ++ c :: v) other = lev (u ++ v) other
  /\ lev other (u ++ c :: v) = lev other (u ++ v)
  /\ close (u ++ c :: v) other = close (u ++ v) other
  /\ close other (u ++ c :: v) = close other (u ++ v).
Proof.
  intros Hc.
  assert (E : norm (u ++ c :: v) = norm (u ++ v)).
  { unfold normalizeAnswer.
    rewrite !removeWhiteSpace_trim, (@removeWhiteSpace_insert u v c Hc).
    reflexivity. }
  split; [unfold normalizeAnswer; rewrite removeWhiteSpace_trim; reflexivity|].
  split; [exact E|].
  unfold levenshtein, isCloseMatch. rewrite E. repeat split.
Qed.

(** X2. [levenshtein] is symmetric. *)
Theorem levenshtein_symmetric (a b : jsstring) : lev a b = lev b a.
Proof. rewrite !levenshtein_lev_distance. apply lev_distance_sym. Qed.

(** X3. [levenshtein(a, b)] is 0 exactly when [a] and [b] have the same
    normal form. *)
Theorem levenshtein_zero_iff (a b : jsstring) :
  lev a b = 0 <-> norm a = norm b.
Proof. rewrite levenshtein_lev_distance. apply lev_distance_zero. Qed.

(** X4. [levenshtein] satisfies the triangle inequality. *)
Theorem levenshtein_triangle (a b c : jsstring) :
  lev a c <= lev a b + lev b c.
Proof. rewrite !levenshtein_lev_distance. apply lev_distance_triangle. Qed.

(** X5. [levenshtein(a, b)] lies between the difference and the larger
    of the lengths of the two normal forms. *)
Theorem levenshtein_bounds (a b : jsstring) :
  length (norm a) - length (norm b) <= lev a b
  /\ length (norm b) - length (norm a) <= lev a b
  /\ lev a b <= Nat.max (length (norm a)) (length (norm b)).
Proof. rewrite levenshtein_lev_distance. apply lev_distance_bounds. Qed.

(** X6. A close match never differs from the answer by more than the
    tolerance in length: at most 2 code units for a normalised answer of
    6 units or more, at most 1 below. *)
Theorem isCloseMatch_length_gap (typed answer : jsstring) :
  close typed answer = true ->
  let tol := if 6 <=? length (norm answer) then 2 else 1 in
  length (norm typed) <= length (norm answer) + tol
  /\ length (norm answer) <= length (norm typed) + tol.
Proof.
  intros H. cbv zeta.
  apply (@isCloseMatch_spec toLowerCase toLowerCase_idem toLowerCase_no_ws) in H.
  destruct H as [_ [E|Hd]]; [rewrite E; lia|].
  unfold tolerance in Hd.
  pose proof (lev_distance_bounds (norm typed) (norm answer)). lia.
Qed.

(** X7. Every typed string whose normal form is a single code unit is a
    close match for every answer whose normal form is a single code
    unit. *)
Theorem isCloseMatch_single_units (typed answer : jsstring) :
  length (norm typed) = 1 -> length (norm answer) = 1 ->
  close typed answer = true.
Proof.
  intros Ht Ha.
  apply (@isCloseMatch_spec toLowerCase toLowerCase_idem toLowerCase_no_ws).
  split; [intros E; rewrite E in Ht; discriminate|]. right.
  pose proof (lev_distance_bounds (norm typed) (norm answer)) as (_ & _ & H).
  unfold tolerance. rewrite Ht, Ha in *. simpl in *. exact H.
Qed.

(** X8. The flags of [submitTyping]: [ok] means equal normal forms;
    [close] means different normal forms, a non-empty typed one and a
    distance within the tolerance; both never hold together; and an
    empty (or blank) typed text is counted correct only for a word whose
    normal form is empty too. *)
Theorem submitTyping_flags (typed word : jsstring) :
  let ok := fst (submitTyping toLowerCase typed word) in
  let cl := snd (submitTyping toLowerCase typed word) in
  let tol := if 6 <=? length (norm word) then 2 else 1 in
  (ok = true <-> norm typed = norm word)
  /\ (cl = true <->
      norm typed <> norm word /\ norm typed <> []
      /\ lev_distance (norm typed) (norm word) <= tol)
  /\ ok && cl = false
  /\ (norm typed = [] ->
      submitTyping_correct toLowerCase typed word = true -> norm word = []).
Proof.
  cbv zeta. unfold submitTyping_correct, submitTyping. cbn [fst snd].
  pose proof (@isCloseMatch_spec toLowerCase toLowerCase_idem toLowerCase_no_ws
                typed word) as Hspec.
  unfold tolerance in Hspec.
  destruct (str_eqb (norm typed) (norm word)) eqn:E.
  - apply str_eqb_eq in E. cbn [negb andb orb].
    split; [tauto|]. split; [split; [discriminate|tauto]|].
    split; [reflexivity|]. intros Ht _. congruence.
  - assert (Hne : norm typed <> norm word).
    { intros Heq. apply str_eqb_eq in Heq. congruence. }
    cbn [negb andb orb].
    split; [split; [discriminate|contradiction]|].
    split; [rewrite Hspec; tauto|].
    split; [reflexivity|].
    intros Ht Hc. apply Hspec in Hc. tauto.
Qed.

End MatcherExtras.

Lemma white_space_is_ignored_witness :
  isWhiteSpace 32 = true
  /\ normalizeAnswer asciiToLowerCase (lit "ab" ++ 32%N :: lit "Cd")
     = normalizeAnswer asciiToLowerCase (lit "ab" ++ lit "Cd").
Proof.
  split; [reflexivity|].
  exact (proj1 (proj2 (@white_space_is_ignored asciiToLowerCase
                         (lit "ab") (lit "Cd") [] 32%N eq_refl))).
Defined.

Lemma isCloseMatch_length_gap_witness :
  isCloseMatch asciiToLowerCase (lit "flashcard") (lit "Flash Cards") = true
  /\ length (normalizeAnswer asciiToLowerCase (lit "Flash Cards"))
     <= length (normalizeAnswer asciiToLowerCase (lit "flashcard")) + 2.
Proof.
  split; [reflexivity|].
  exact (proj2 (@isCloseMatch_length_gap asciiToLowerCase asciiToLowerCase_idem
                  asciiToLowerCase_no_ws (lit "flashcard") (lit "Flash Cards")
                  eq_refl)).
Defined.

Lemma isCloseMatch_single_units_witness :
  isCloseMatch asciiToLowerCase (lit " x") (lit "Q ") = true.
Proof.
  apply (@isCloseMatch_single_units asciiToLowerCase asciiToLowerCase_idem
           asciiToLowerCase_no_ws); reflexivity.
Defined.

Lemma submitTyping_flags_witness :
  fst (submitTyping asciiToLowerCase (lit "Kat") (lit "cat"))
  && snd (submitTyping asciiToLowerCase (lit "Kat") (lit "cat")) = false.
Proof.
  exact (proj1 (proj2 (proj2 (@submitTyping_flags asciiToLowerCase
                                asciiToLowerCase_idem asciiToLowerCase_no_ws
                                (lit "Kat") (lit "cat"))))).
Defined.

(* ================================================================= *)
(** * [stripSenseSuffix] *)

Lemma trimStart_idem (s : jsstring) : trimStart (trimStart s) = trimStart s.
Proof.
  induction s as [|c s IH]; [reflexivity|]. simpl.
  destruct (isWhiteSpace c) eqn:E; [exact IH|]. simpl. rewrite E. reflexivity.
Qed.

(** [trimStart] removes a prefix of white space. *)
Lemma trimStart_split (s : jsstring) :
  exists pre, s = pre ++ trimStart s /\ Forall (fun c => isWhiteSpace c = true) pre.
Proof.
  induction s as [|c s (pre & E & Hpre)]; [exists []; split; [reflexivity|constructor]|].
  simpl. destruct (isWhiteSpace c) eqn:Ec.
  - exists (c :: pre). split; [simpl; rewrite <- E; reflexivity|].
    constructor; assumption.
  - exists []. split; [reflexivity|constructor].
Qed.

Lemma trimStart_fixed_cons (c : N) (s : jsstring) :
  trimStart (c :: s) = c :: s -> isWhiteSpace c = false.
Proof.
  simpl. destruct (isWhiteSpace c) eqn:E; [|reflexivity]. intros H.
  destruct (trimStart_split s) as (pre & Hs & _).
  apply (f_equal (@length N)) in H, Hs. rewrite length_app in Hs.
  simpl in H. lia.
Qed.

(** [trimEnd] keeps a string that starts with a unit that is not white
    space starting with it. *)
Lemma trimStart_trimEnd (s : jsstring) :
  trimStart s = s -> trimStart (trimEnd s) = trimEnd s.
Proof.
  intros Hs. unfold trimEnd.
  destruct (trimStart_split (rev s)) as (pre & E & Hpre).
  set (p := rev (trimStart (rev s))) in *.
  assert (Es : s = p ++ rev pre).
  { rewrite <- (rev_involutive s). rewrite E at 1.
    rewrite rev_app_distr. reflexivity. }
  destruct p as [|c p']; [reflexivity|].
  rewrite Es in Hs. change ((c :: p') ++ rev pre) with (c :: (p' ++ rev pre)) in Hs.
  apply trimStart_fixed_cons in Hs. simpl. rewrite Hs. reflexivity.
Qed.

Lemma trim_trimmed (s : jsstring) :
  trimStart (trim s) = trim s /\ trimStart (rev (trim s)) = rev (trim s).
Proof.
  split.
  - apply trimStart_trimEnd, trimStart_idem.
  - unfold trim, trimEnd. rewrite rev_involutive. apply trimStart_idem.
Qed.

Lemma trim_fixed (s : jsstring) :
  trimStart s = s -> trimStart (rev s) = rev s -> trim s = s.
Proof.
  intros H1 H2. unfold trim, trimEnd. rewrite H1, H2. apply rev_involutive.
Qed.

Lemma hangul_not_white (c : N) : isHangulSyllable c = true -> isWhiteSpace c = false.
Proof.
  unfold isHangulSyllable. intros H. apply andb_prop in H as [H1 H2].
  apply N.leb_le in H1, H2. apply not_true_is_false. unfold isWhiteSpace.
  rewrite !orb_true_iff, !andb_true_iff, !N.leb_le, !N.eqb_eq. lia.
Qed.

Lemma stripSenseSuffix_cases (word : jsstring) :
  ((exists w h d1 d2,
       trim word = w ++ [h; d1; d2]
       /\ isHangulSyllable h = true /\ isDigit d1 = true /\ isDigit d2 = true
       /\ stripSenseSuffix word = w ++ [h])
   \/ (stripSenseSuffix word = trim word
       /\ forall w h d1 d2,
            trim word = w ++ [h; d1; d2] ->
            isHangulSyllable h && isDigit d1 && isDigit d2 = false))
  /\ trim (stripSenseSuffix word) = stripSenseSuffix word.
Proof.
  pose proof (trim_trimmed word) as [Hs He].
  unfold stripSenseSuffix. cbv zeta.
  set (s := trim word) in *.
  assert (Hrev : s = rev (rev s)) by (symmetry; apply rev_involutive).
  assert (Hno : forall w h d1 d2, s = w ++ [h; d1; d2] ->
                rev s = d2 :: d1 :: h :: rev w).
  { intros w h d1 d2 E. rewrite E, rev_app_distr. reflexivity. }
  destruct (rev s) as [|d2 [|d1 [|h r]]] eqn:Er.
  - split; [right|apply trim_fixed; rewrite ?Er; assumption].
    split; [reflexivity|]. intros w h d1 d2 E. discriminate (Hno _ _ _ _ E).
  - split; [right|apply trim_fixed; rewrite ?Er; assumption].
    split; [reflexivity|]. intros w h d1 d2' E. discriminate (Hno _ _ _ _ E).
  - split; [right|apply trim_fixed; rewrite ?Er; assumption].
    split; [reflexivity|]. intros w h d1' d2' E. discriminate (Hno _ _ _ _ E).
  - destruct (isHangulSyllable h && isDigit d1 && isDigit d2) eqn:Ec.
    + apply andb_prop in Ec as [Ec Hd2]. apply andb_prop in Ec as [Hh Hd1].
      assert (Es : s = rev r ++ [h; d1; d2]).
      { rewrite Hrev. simpl. rewrite <- !app_assoc. reflexivity. }
      split.
      * left. exists (rev r), h, d1, d2. repeat split; assumption || reflexivity.
      * simpl rev. apply trim_fixed.
        -- destruct (rev r) as [|c q] eqn:Eq.
           ++ simpl. rewrite (@hangul_not_white h Hh). reflexivity.
           ++ rewrite Es in Hs. simpl in Hs. apply trimStart_fixed_cons in Hs.
              simpl. rewrite Hs. reflexivity.
        -- rewrite rev_app_distr. simpl.
           rewrite (@hangul_not_white h Hh). reflexivity.
    + split; [right|apply trim_fixed; rewrite ?Er; assumption].
      split; [reflexivity|]. intros w h' d1' d2' E.
      pose proof (Hno _ _ _ _ E) as E'. injection E' as <- <- <- _. exact Ec.
Qed.

(** X9. [stripSenseSuffix(word)] is the trimmed word without its last
    two code units when the trimmed word ends with a Hangul syllable
    followed by two ASCII digits, and the trimmed word itself in every
    other case (so nothing but one two-digit sense number is ever
    removed); the result has no white space at either end. *)
Theorem stripSenseSuffix_spec (word : jsstring) :
  ((exists w h d1 d2,
       trim word = w ++ [h; d1; d2]
       /\ isHangulSyllable h = true /\ isDigit d1 = true /\ isDigit d2 = true
       /\ stripSenseSuffix word = w ++ [h])
   \/ (stripSenseSuffix word = trim word
       /\ forall w h d1 d2,
            trim word = w ++ [h; d1; d2] ->
            isHangulSyllable h && isDigit d1 && isDigit d2 = false))
  /\ trim (stripSenseSuffix word) = stripSenseSuffix word.
Proof. apply stripSenseSuffix_cases. Qed.

(** X13. [stripSenseSuffix] is idempotent: stripping a word that was
    already stripped (as [autoExamples] does with [card.word]) changes
    nothing. *)
Theorem stripSenseSuffix_idempotent (word : jsstring) :
  stripSenseSuffix (stripSenseSuffix word) = stripSenseSuffix word.
Proof.
  destruct (stripSenseSuffix_cases word) as [Hw Ht].
  destruct (stripSenseSuffix_cases (stripSenseSuffix word)) as [[H|[H _]] _];
    [|rewrite H; exact Ht].
  exfalso. destruct H as (w & h & d1 & d2 & E & Hh & Hd1 & Hd2 & _).
  rewrite Ht in E.
  destruct Hw as [(w0 & h0 & _ & _ & _ & Hh0 & _ & _ & E0)|[E0 Hno]].
  - rewrite E0 in E.
    change (w ++ [h; d1; d2]) with (w ++ [h; d1] ++ [d2]) in E.
    rewrite app_assoc in E. apply app_inj_tail in E as [_ ->].
    unfold isHangulSyllable, isDigit in *.
    apply andb_prop in Hh0 as [H1 _]. apply andb_prop in Hd2 as [_ H2].
    apply N.leb_le in H1, H2. lia.
  - rewrite E0 in E. specialize (Hno _ _ _ _ E).
    rewrite Hh, Hd1, Hd2 in Hno. discriminate.
Qed.

Example stripSenseSuffix_samples :
  stripSenseSuffix ([32; 44032; 44201; 48; 49; 32]%N) = [44032; 44201]%N
  /\ stripSenseSuffix (lit " abc01 ") = lit "abc01"
  /\ stripSenseSuffix ([44032; 48; 49; 48; 49]%N) = [44032; 48; 49; 48; 49]%N
  /\ stripSenseSuffix ([44032; 49]%N) = [44032; 49]%N.
Proof. repeat split. Qed.

(* ================================================================= *)
(** * Further properties of the scheduler *)

Open Scope float_scope.

Lemma Prim2SF_one : Prim2SF 1 = S754_finite false 4503599627370496 (-52).
Proof. vm_compute. reflexivity. Qed.

(** Adding 1 to a number gives a number. *)
Lemma add_1_not_nan (x : float) : is_nan x = false -> is_nan (x + 1) = false.
Proof.
  rewrite !is_nan_false_iff, add_spec, Prim2SF_one. intros H.
  destruct (Prim2SF x) as [s|s| |s m e]; try discriminate.
  - exfalso; apply H; reflexivity.
  - unfold SF64add, SFadd. apply binary_normalize_not_nan.
Qed.

Lemma SFcompare_not_nan (a b : spec_float) :
  a <> S754_nan -> b <> S754_nan -> SFcompare a b <> None.
Proof.
  destruct a as [[]|[]| |[] m1 e1], b as [[]|[]| |[] m2 e2]; intros Ha Hb;
    try discriminate; try (exfalso; apply Ha; reflexivity);
    exfalso; apply Hb; reflexivity.
Qed.

(** Two numbers neither of which is below the other compare as equal. *)
Lemma leb_of_not_ltb (x y : float) :
  is_nan x = false -> is_nan y = false ->
  (x <? y) = false -> (y <? x) = false -> (x <=? y) = true.
Proof.
  rewrite !is_nan_false_iff, !ltb_spec, leb_spec. unfold SFltb, SFleb.
  intros Hx Hy. rewrite (SFcompare_antisym (Prim2SF x) (Prim2SF y)).
  pose proof (SFcompare_not_nan Hx Hy) as Hc.
  destruct (SFcompare (Prim2SF x) (Prim2SF y)) as [[]|]; cbn [CompOpp];
    congruence.
Qed.

(** [Math.min(x, 2)] is at most 2 for every number [x]. *)
Lemma Math_min_2_le (x : float) :
  is_nan x = false -> (Math_min x 2 <=? 2) = true.
Proof.
  intros Hx. unfold Math_min. rewrite Hx.
  change (is_nan 2) with false. cbn [orb].
  destruct (x <? 2) eqn:E1; [apply ltb_leb; exact E1|].
  destruct (2 <? x) eqn:E2; [reflexivity|].
  destruct (is_zero x && negb (get_sign x)); [reflexivity|].
  apply leb_of_not_ltb; [exact Hx|reflexivity|exact E1|exact E2].
Qed.

(** [Math.min(x, 2)] is above 2 for no [x], [NaN] included. *)
Lemma Math_min_2_not_above (x : float) : (2 <? Math_min x 2) = false.
Proof.
  destruct (is_nan x) eqn:Hx.
  - unfold Math_min. rewrite Hx. reflexivity.
  - apply leb_not_ltb, Math_min_2_le, Hx.
Qed.

(** X10. Whatever the card, the action and the time, the graded card has
    all six review properties, keeps its other properties, and is in
    state "learning" or "known" (never "new"); it is "known" exactly when
    the action is neither "again" nor "learning". *)
Theorem reviewCard_result_shape {X : Type} (c : Card X) (action : jsstring)
    (now : float) :
  exists e d r l s du,
    reviewCard c action now
    = mkCard (Some e) (Some d) (Some r) (Some l) (Some s) (Some du) (rest c)
    /\ (s = lit "learning" \/ s = lit "known")
    /\ (s = lit "known" <->
        action <> lit "again" /\ action <> lit "learning").
Proof.
  destruct c as [e d r l s du x]. unfold reviewCard.
  destruct (str_eqb action (lit "again")) eqn:Ea;
    [|destruct (str_eqb action (lit "learning")) eqn:El].
  - apply str_eqb_eq in Ea. simpl. do 6 eexists. split; [reflexivity|].
    split; [left; reflexivity|]. split; [discriminate|]. intros [H _].
    contradiction.
  - apply str_eqb_eq in El. simpl. do 6 eexists. split; [reflexivity|].
    split; [left; reflexivity|]. split; [discriminate|]. intros [_ H].
    contradiction.
  - assert (Hna : action <> lit "again").
    { intros E. apply str_eqb_eq in E. congruence. }
    assert (Hnl : action <> lit "learning").
    { intros E. apply str_eqb_eq in E. congruence. }
    simpl.
    repeat match goal with
           | |- context [if ?b then _ else _] => destruct b
           end;
      do 6 eexists; (split; [reflexivity|]);
      (split; [right; reflexivity|]); split; auto.
Qed.

(** X11. The result of a grade does not depend on the previous [due]
    and [state] of the card (a late review is scheduled like a punctual
    one), and the result of "again" does not depend on the previous
    [reps] and [intervalDays] either. *)
Theorem reviewCard_ignores_due_and_state {X : Type}
    (e d r l : option float) (s s' : option jsstring) (du du' : option float)
    (d' r' : option float) (x : X) (action : jsstring) (now : float) :
  reviewCard (mkCard e d r l s du x) action now
  = reviewCard (mkCard e d r l s' du' x) action now
  /\ reviewCard (mkCard e d r l s du x) (lit "again") now
     = reviewCard (mkCard e d' r' l s' du' x) (lit "again") now.
Proof.
  split; [|reflexivity].
  unfold reviewCard.
  destruct (str_eqb action (lit "again")); [reflexivity|].
  destruct (str_eqb action (lit "learning")); [reflexivity|].
  simpl.
  repeat match goal with
         | |- context [if ?b then _ else _] => destruct b
         end; reflexivity.
Qed.

(** X12. The "learning" streak is capped: after a "learning" grade
    [reps] is above 2 for no card, and it is at most 2 as soon as the
    card's [reps] was a number (or absent). *)
Theorem reviewCard_learning_reps_capped {X : Type} (c : Card X) (now : float) :
  exists r',
    reps (reviewCard c (lit "learning") now) = Some r'
    /\ (2 <? r') = false
    /\ (is_nan (nullish (reps c) 0) = false -> (r' <=? 2) = true).
Proof.
  destruct c as [e d r l s du x]. unfold reviewCard. simpl.
  eexists. split; [reflexivity|]. split; [apply Math_min_2_not_above|].
  intros H. apply Math_min_2_le, add_1_not_nan, H.
Qed.

Lemma reviewCard_learning_reps_capped_witness :
  exists r',
    reps (reviewCard (mkCard None None (Some 7) None None None tt)
            (lit "learning") 0) = Some r'
    /\ (r' <=? 2) = true.
Proof.
  destruct (@reviewCard_learning_reps_capped unit
              (mkCard None None (Some 7) None None None tt) 0)
    as (r' & E & _ & H).
  exists r'. split; [exact E|]. apply H. reflexivity.
Defined.

Lemma reviewCard_rest {X : Type} (c : Card X) (action : jsstring) (now : float) :
  rest (reviewCard c action now) = rest c.
Proof.
  destruct c as [e d r l s du x]. unfold reviewCard.
  destruct (str_eqb action (lit "again")); [reflexivity|].
  destruct (str_eqb action (lit "learning")); [reflexivity|].
  simpl.
  repeat match goal with
         | |- context [if ?b then _ else _] => destruct b
         end; reflexivity.
Qed.

Lemma reviewCard_state {X : Type} (c : Card X) (action : jsstring) (now : float) :
  state (reviewCard c action now) = Some (lit "learning")
  \/ state (reviewCard c action now) = Some (lit "known").
Proof.
  destruct c as [e d r l s du x]. unfold reviewCard.
  destruct (str_eqb action (lit "again")); [left; reflexivity|].
  destruct (str_eqb action (lit "learning")); [left; reflexivity|].
  simpl.
  repeat match goal with
         | |- context [if ?b then _ else _] => destruct b
         end; right; reflexivity.
Qed.

(** A card reset to the defaults is graded like a card without review
    properties. *)
Lemma reviewCard_reset_card {X : Type} (x : X) (t0 : float) (action : jsstring)
    (now : float) :
  reviewCard (mkCard (Some lit_2_5) (Some 0) (Some 0) (Some 0)
                     (Some (lit "new")) (Some t0) x) action now
  = reviewCard (mkCard None None None None None None x) action now.
Proof.
  unfold reviewCard.
  destruct (str_eqb action (lit "again")); [reflexivity|].
  destruct (str_eqb action (lit "learning")); reflexivity.
Qed.

Lemma leb_refl (x : float) : is_nan x = false -> (x <=? x) = true.
Proof.
  rewrite is_nan_false_iff, leb_spec. intros H. unfold SFleb.
  rewrite (SFcompare_refl H). reflexivity.
Qed.

Close Scope float_scope.

(* ================================================================= *)
(** * The card list: reset, grading, counters, queue and navigation *)

Section CardListFacts.

Context {X : Type}.
Variable getId : X -> jsstring.

Local Abbreviation cid := (card_id getId).

Lemma card_id_reviewCard (c : Card X) (action : jsstring) (now : float) :
  cid (reviewCard c action now) = cid c.
Proof. unfold card_id. rewrite reviewCard_rest. reflexivity. Qed.

(** X14. [resetOneCard(id)] keeps the list, its order and every
    property of its cards other than the review ones; the cards with
    another id are untouched; each card with the given id becomes a
    "new" card that is graded, whatever the action and the time, like a
    card that was never reviewed, and that is due at the time of the
    reset when that time is a number; resetting twice is resetting
    once. *)
Theorem resetOneCard_spec (prev : list (Card X)) (id : jsstring) (now : float) :
  map (@rest X) (resetOneCard getId prev id now) = map (@rest X) prev
  /\ (forall i c, nth_error prev i = Some c -> cid c <> id ->
                  nth_error (resetOneCard getId prev id now) i = Some c)
  /\ (forall i c, nth_error prev i = Some c -> cid c = id ->
        exists c', nth_error (resetOneCard getId prev id now) i = Some c'
          /\ rest c' = rest c
          /\ state c' = Some (lit "new")
          /\ (forall action t,
                reviewCard c' action t
                = reviewCard (mkCard None None None None None None (rest c))
                             action t)
          /\ (is_nan now = false -> isDue c' now = true))
  /\ resetOneCard getId (resetOneCard getId prev id now) id now
     = resetOneCard getId prev id now.
Proof.
  unfold resetOneCard. split; [|split; [|split]].
  - rewrite map_map. apply map_ext. intros c.
    destruct (str_eqb (cid c) id); reflexivity.
  - intros i c Hi Hne. rewrite nth_error_map, Hi. simpl.
    rewrite (str_eqb_neq Hne). reflexivity.
  - intros i c Hi He. rewrite nth_error_map, Hi. simpl.
    apply str_eqb_eq in He. rewrite He. eexists. split; [reflexivity|].
    split; [reflexivity|]. split; [reflexivity|].
    split; [intros action t; apply reviewCard_reset_card|].
    intros Hn. unfold isDue. simpl. apply leb_refl, Hn.
  - rewrite map_map. apply map_ext. intros c.
    destruct (str_eqb (cid c) id) eqn:E; unfold card_id in *; simpl;
      rewrite E; reflexivity.
Qed.

Lemma map_replace_other (f : Card X -> Card X) (l : list (Card X)) :
  (forall c, In c l -> f c = c) -> map f l = l.
Proof.
  intros H. induction l as [|c l IH]; [reflexivity|]. simpl.
  rewrite H by (left; reflexivity). rewrite IH; [reflexivity|].
  intros c' Hc'. apply H. right. exact Hc'.
Qed.

Lemma act_replaces_one (prev : list (Card X)) (a updated : Card X) :
  NoDup (map cid prev) ->
  forall i, nth_error prev i = Some a ->
  map (fun c => if str_eqb (cid c) (cid a) then updated else c) prev
  = firstn i prev ++ updated :: skipn (S i) prev.
Proof.
  induction prev as [|c prev IH]; intros Hnd i Hi; [destruct i; discriminate|].
  simpl in Hnd. inversion Hnd as [|? ? Hnotin Hnd']; subst.
  destruct i as [|i]; simpl in Hi.
  - injection Hi as ->. simpl.
    rewrite (proj2 (str_eqb_eq (cid a) (cid a)) eq_refl). f_equal.
    apply map_replace_other. intros c' Hc'.
    rewrite str_eqb_neq; [reflexivity|].
    intros E. apply Hnotin. rewrite <- E. apply in_map. exact Hc'.
  - simpl. rewrite str_eqb_neq.
    + f_equal. apply IH; assumption.
    + intros E. apply Hnotin. rewrite E. apply in_map.
      apply (nth_error_In _ _ Hi).
Qed.

(** X15. [act(action)] never changes the ids of the list, nor its order
    or length; each card is left as it is unless it has the id of the
    active card, in which case it becomes the graded active card; when
    the ids are distinct and the active card stands at position [i], the
    new list is the old one with position [i] replaced; without an
    active card nothing changes. *)
Theorem act_spec (prev : list (Card X)) (a : Card X) (action : jsstring)
    (now : float) :
  let updated := reviewCard a action now in
  map cid (act getId prev (Some a) action now) = map cid prev
  /\ (forall i c, nth_error prev i = Some c ->
        nth_error (act getId prev (Some a) action now) i
        = Some (if str_eqb (cid c) (cid a) then updated else c))
  /\ (forall i, NoDup (map cid prev) -> nth_error prev i = Some a ->
        act getId prev (Some a) action now
        = firstn i prev ++ updated :: skipn (S i) prev)
  /\ act getId prev None action now = prev.
Proof.
  cbv zeta. unfold act. rewrite card_id_reviewCard.
  split; [|split; [|split]].
  - rewrite map_map. apply map_ext_in. intros c _.
    destruct (str_eqb (cid c) (cid a)) eqn:E; [|reflexivity].
    apply str_eqb_eq in E. rewrite card_id_reviewCard. symmetry. exact E.
  - intros i c Hi. rewrite nth_error_map, Hi. reflexivity.
  - intros i Hnd Hi. apply act_replaces_one; assumption.
  - reflexivity.
Qed.

End CardListFacts.

Section QueueFacts.

Context {X : Type}.
Variable getId : X -> jsstring.

Lemma state_is_exclusive (c : Card X) :
  state_is (lit "learning") c && state_is (lit "known") c = false.
Proof.
  unfold state_is. destruct (state c) as [v|]; [|reflexivity].
  destruct (str_eqb v (lit "learning")) eqn:E; [|reflexivity].
  apply str_eqb_eq in E. subst v. reflexivity.
Qed.

Lemma filter_length_le (p : Card X -> bool) (l : list (Card X)) :
  length (filter p l) <= length l.
Proof.
  induction l as [|c l IH]; [apply Nat.le_refl|]. simpl.
  destruct (p c); simpl; lia.
Qed.

Lemma buckets_le (l : list (Card X)) :
  length (filter (state_is (lit "learning")) l)
  + length (filter (state_is (lit "known")) l) <= length l.
Proof.
  induction l as [|c l IH]; [apply Nat.le_refl|]. cbn [filter].
  pose proof (state_is_exclusive c) as H.
  destruct (state_is (lit "learning") c), (state_is (lit "known") c);
    try discriminate; cbn [length]; lia.
Qed.

Lemma state_is_of_state (s v : jsstring) (c : Card X) :
  state c = Some v -> state_is s c = str_eqb v s.
Proof. unfold state_is. intros ->. reflexivity. Qed.

Lemma buckets_eq (l : list (Card X)) :
  Forall (fun c => state c = Some (lit "learning")
                   \/ state c = Some (lit "known")) l ->
  length (filter (state_is (lit "learning")) l)
  + length (filter (state_is (lit "known")) l) = length l.
Proof.
  induction 1 as [|c l Hc _ IH]; [reflexivity|]. cbn [filter].
  destruct Hc as [E|E];
    rewrite (@state_is_of_state (lit "learning") _ c E),
            (@state_is_of_state (lit "known") _ c E);
    [change (str_eqb (lit "learning") (lit "learning")) with true;
     change (str_eqb (lit "learning") (lit "known")) with false
    |change (str_eqb (lit "known") (lit "learning")) with false;
     change (str_eqb (lit "known") (lit "known")) with true];
    cbn [length]; lia.
Qed.

(** X16. The counters of [stats]: the learning and the known cards never
    overlap, so their numbers add up to at most the total, and no more
    cards are due than there are cards; once every card of the list has
    been graded at least once, learning and known add up to the total
    exactly. *)
Theorem stats_buckets (cards : list (Card X)) (now : float) :
  match stats cards now with
  | (nDue, nLearning, nKnown, total) =>
      nLearning + nKnown <= total
      /\ nDue <= total
      /\ (Forall (fun c => exists c0 action t, c = reviewCard c0 action t) cards ->
          nLearning + nKnown = total)
  end.
Proof.
  unfold stats. split; [apply buckets_le|]. split; [apply filter_length_le|].
  intros H. apply buckets_eq. apply (Forall_impl _ (P := fun c =>
    exists c0 action t, c = reviewCard c0 action t)); [|exact H].
  intros c (c0 & action & t & ->). apply reviewCard_state.
Qed.

Lemma find_findIndex (p : Card X -> bool) (q : list (Card X)) :
  find p q = match findIndex p q with
             | Some i => nth_error q i
             | None => None
             end.
Proof.
  induction q as [|c q IH]; [reflexivity|]. simpl.
  destruct (p c); [reflexivity|]. rewrite IH.
  destruct (findIndex p q); reflexivity.
Qed.

Lemma findIndex_Some (p : Card X -> bool) (q : list (Card X)) (i : nat) :
  findIndex p q = Some i -> i < length q.
Proof.
  revert i; induction q as [|c q IH]; intros i; [discriminate|]. simpl.
  destruct (p c); [intros [= <-]; lia|].
  destruct (findIndex p q) as [j|]; [|discriminate].
  intros [= <-]. specialize (IH j eq_refl). lia.
Qed.

(** X17. The active card is a card of the queue, and there is none
    exactly when the queue is empty; when some card of the queue has the
    active id, the active card is the first such card; otherwise it is
    the first card of the queue. *)
Theorem activeCard_spec (q : list (Card X)) (activeId : option jsstring) :
  (activeCard getId q activeId = None <-> q = [])
  /\ (forall c, activeCard getId q activeId = Some c -> In c q)
  /\ (forall c, find (id_is getId activeId) q = Some c ->
                activeCard getId q activeId = Some c
                /\ id_is getId activeId c = true)
  /\ (find (id_is getId activeId) q = None ->
      activeCard getId q activeId = nth_error q 0).
Proof.
  unfold activeCard. destruct q as [|c0 q]; [repeat split; discriminate|].
  split; [split; discriminate|]. split; [|split].
  - destruct (find (id_is getId activeId) (c0 :: q)) as [c'|] eqn:E;
      cbn [nullish]; intros c Hc; injection Hc as <-.
    + apply (find_some _ _ E).
    + left. reflexivity.
  - intros c E. rewrite E. split; [reflexivity|]. apply (find_some _ _ E).
  - intros E. rewrite E. reflexivity.
Qed.

(** X18. On a non-empty queue, and for an active id that is [null] or
    a non-empty string, the index the queue effect settles on is inside
    the queue and the card at that index is the active card. *)
Theorem resolvedIndex_is_activeCard (q : list (Card X)) (activeId : option jsstring) :
  q <> [] -> activeId <> Some [] ->
  resolvedIndex getId q activeId < length q
  /\ nth_error q (resolvedIndex getId q activeId) = activeCard getId q activeId.
Proof.
  intros Hq Hid. destruct q as [|c0 q]; [contradiction|].
  unfold resolvedIndex, activeCard.
  destruct activeId as [[|u i]|]; [contradiction| |].
  - rewrite find_findIndex.
    destruct (findIndex _ _) as [k|] eqn:E; simpl nullish.
    + pose proof (findIndex_Some _ _ E) as Hk. split; [exact Hk|].
      destruct (nth_error (c0 :: q) k) as [c|] eqn:En; [reflexivity|].
      apply nth_error_None in En. lia.
    + split; [simpl; lia|reflexivity].
  - split; [simpl; lia|]. simpl.
    replace (find (id_is getId None) q) with (@None (Card X)); [reflexivity|].
    symmetry. induction q as [|c q IH]; [reflexivity|]. simpl.
    apply IH. discriminate.
Qed.

End QueueFacts.

Lemma resolvedIndex_is_activeCard_witness :
  let q := [mkCard None None None None None None (lit "1-a");
            mkCard None None None None None None (lit "2-b")] in
  q <> [] /\ Some (lit "2-b") <> Some []
  /\ nth_error q (resolvedIndex (fun x : jsstring => x) q (Some (lit "2-b")))
     = activeCard (fun x : jsstring => x) q (Some (lit "2-b")).
Proof.
  cbv zeta. split; [discriminate|]. split; [discriminate|].
  apply (@resolvedIndex_is_activeCard jsstring (fun x => x)); discriminate.
Defined.

(* ================================================================= *)
(** * Navigation in the queue *)

Open Scope Z_scope.

Lemma rem_wrap_up (len i : Z) :
  0 <= i < len -> Z.rem (i + 1 + len) len = if i + 1 =? len then 0 else i + 1.
Proof.
  intros H. rewrite Z.rem_mod_nonneg by lia.
  destruct (Z.eqb_spec (i + 1) len) as [E|E].
  - symmetry. apply Z.mod_unique with (q := 2); lia.
  - symmetry. apply Z.mod_unique with (q := 1); lia.
Qed.

Lemma rem_wrap_down (len i : Z) :
  0 <= i < len -> Z.rem (i - 1 + len) len = if i =? 0 then len - 1 else i - 1.
Proof.
  intros H. rewrite Z.rem_mod_nonneg by lia.
  destruct (Z.eqb_spec i 0) as [E|E].
  - symmetry. apply Z.mod_unique with (q := 0); lia.
  - symmetry. apply Z.mod_unique with (q := 1); lia.
Qed.

(** X19. From an index inside a queue of [len] cards, [nextCard] moves
    to the following index and wraps from the last card to the first,
    [prevCard] moves to the preceding index and wraps from the first
    card to the last; both stay inside the queue and each undoes the
    other. *)
Theorem next_prev_wrap (len i : Z) :
  0 <= i < len ->
  nextCard len i = Some (if i + 1 =? len then 0 else i + 1)
  /\ prevCard len i = Some (if i =? 0 then len - 1 else i - 1)
  /\ (forall j, nextCard len i = Some j -> 0 <= j < len /\ prevCard len j = Some i)
  /\ (forall j, prevCard len i = Some j -> 0 <= j < len /\ nextCard len j = Some i).
Proof.
  intros H. unfold nextCard, prevCard, goToIndex.
  assert (Hl : (len =? 0) = false) by (apply Z.eqb_neq; lia).
  rewrite Hl, rem_wrap_up, rem_wrap_down by exact H.
  split; [reflexivity|]. split; [reflexivity|]. split.
  - intros j [= <-].
    destruct (Z.eqb_spec (i + 1) len) as [E|E].
    + split; [lia|]. rewrite rem_wrap_down by lia. simpl. f_equal. lia.
    + split; [lia|]. rewrite rem_wrap_down by lia.
      destruct (Z.eqb_spec (i + 1) 0); [lia|]. f_equal. lia.
  - intros j [= <-].
    destruct (Z.eqb_spec i 0) as [E|E].
    + split; [lia|]. rewrite rem_wrap_up by lia.
      destruct (Z.eqb_spec (len - 1 + 1) len); [f_equal; lia|lia].
    + split; [lia|]. rewrite rem_wrap_up by lia.
      destruct (Z.eqb_spec (i - 1 + 1) len); [lia|f_equal; lia].
Qed.

Lemma next_prev_wrap_witness :
  0 <= 4 < 5
  /\ nextCard 5 4 = Some 0 /\ prevCard 5 0 = Some 4.
Proof.
  split; [lia|].
  split; [exact (proj1 (@next_prev_wrap 5 4 ltac:(lia)))|].
  exact (proj1 (proj2 (@next_prev_wrap 5 0 ltac:(lia)))).
Defined.

(** X20. [goToIndex] does nothing exactly on an empty queue; on a queue
    of [len] cards it lands inside the queue for every requested index
    from [-len] on, and on an index that is not positive (so outside the
    queue unless it is 0) for every requested index below [-len]. *)
Theorem goToIndex_range (len nextIdx : Z) :
  0 <= len ->
  (goToIndex len nextIdx = None <-> len = 0)
  /\ (forall j, goToIndex len nextIdx = Some j ->
        (- len <= nextIdx -> 0 <= j < len)
        /\ (nextIdx < - len -> - len < j <= 0)).
Proof.
  intros Hlen. unfold goToIndex.
  destruct (Z.eqb_spec len 0) as [E|E].
  - split; [tauto|]. discriminate.
  - split; [split; [discriminate|contradiction]|].
    intros j [= <-]. split; intros H.
    + apply Z.rem_bound_pos; lia.
    + assert (H1 : - len < Z.rem (nextIdx + len) len <= 0).
      { pose proof (Z.rem_bound_pos (- (nextIdx + len)) len) as Hb.
        rewrite Z.rem_opp_l in Hb by lia. lia. }
      exact H1.
Qed.

Lemma goToIndex_range_witness :
  0 <= 3 /\ goToIndex 3 (-5) = Some (-2) /\ goToIndex 0 7 = None.
Proof.
  split; [lia|]. split; [reflexivity|].
  apply (proj1 (@goToIndex_range 0 7 (Z.le_refl 0))). reflexivity.
Defined.

Close Scope Z_scope.

(* ================================================================= *)
(** * Adding a positive constant to a non-negative number *)

Open Scope Z_scope.

Lemma shl_align_value (m : positive) (e e' : Z) :
  e' <= e -> Z.pos (fst (shl_align m e e')) = Z.pos m * 2 ^ (e - e').
Proof.
  intros H. unfold shl_align.
  destruct (e' - e) as [|d|d] eqn:Ed; cbn [fst]; try lia.
  - replace (e - e') with 0 by lia. lia.
  - rewrite iter_xO_pow2. replace (e - e') with (Z.pos d) by lia. lia.
Qed.

Lemma digits2_pos_gt (M : positive) (n : Z) :
  0 <= n -> 2 ^ n <= Z.pos M -> n < Z.pos (digits2_pos M).
Proof.
  intros Hn H. pose proof (digits2_pos_bounds M) as [_ Hlt].
  apply pow2_lt_inv; lia.
Qed.

(** The sum of a valid non-negative float [m * 2^ex] and a normal
    positive float [mc * 2^ec]: it is [+∞], or a finite positive float
    that is at least the first operand, and above it when [ex <= ec + 52]. *)
Lemma SFadd_pos_lower (m mc : positive) (ex ec : Z) :
  bounded prec emax m ex = true ->
  Z.pos (digits2_pos mc) = 53 -> -1074 < ec ->
  SF64add (S754_finite false m ex) (S754_finite false mc ec) = S754_infinity false
  \/ exists m'' e'',
       SF64add (S754_finite false m ex) (S754_finite false mc ec)
       = S754_finite false m'' e''
       /\ (ex < e''
           \/ (e'' = ex /\ Z.pos m <= Z.pos m''
               /\ (ex <= ec + 52 -> Z.pos m < Z.pos m''))).
Proof.
  intros Hb Hdc Hec.
  unfold bounded, canonical_mantissa in Hb.
  apply andb_prop in Hb as [Hcan _]. apply Z.eqb_eq in Hcan.
  rewrite fexp_eq in Hcan.
  pose proof (digits2_pos_bounds m) as Hm.
  pose proof (digits2_pos_bounds mc) as Hmc. rewrite Hdc in Hmc.
  change (2 ^ (53 - 1)) with 4503599627370496 in Hmc.
  set (dm := Z.pos (digits2_pos m)) in *.
  assert (Hdm : 0 < dm) by (unfold dm; lia).
  unfold SF64add, SFadd.
  set (ez := Z.min ex ec).
  assert (Hez1 : ez <= ex) by (unfold ez; lia).
  assert (Hez2 : ez <= ec) by (unfold ez; lia).
  pose proof (shl_align_value m Hez1) as Ha.
  pose proof (shl_align_value mc Hez2) as Hb'.
  set (a := fst (shl_align m ex ez)) in *.
  set (b := fst (shl_align mc ec ez)) in *.
  cbn [cond_Zopp].
  change (Z.pos a + Z.pos b) with (Z.pos (a + b)).
  cbn [binary_normalize]. unfold binary_round.
  set (M := (a + b)%positive).
  assert (HM : Z.pos M = Z.pos m * 2 ^ (ex - ez) + Z.pos mc * 2 ^ (ec - ez)).
  { unfold M. rewrite Pos2Z.inj_add, Ha, Hb'. reflexivity. }
  assert (Hp1 : 0 < 2 ^ (ex - ez)) by (apply Z.pow_pos_nonneg; lia).
  assert (Hp2 : 0 < 2 ^ (ec - ez)) by (apply Z.pow_pos_nonneg; lia).
  set (D := Z.pos (digits2_pos M)).
  (* the sum has at least the digits of its second term *)
  assert (HD2 : 52 + (ec - ez) < D).
  { apply digits2_pos_gt; [lia|]. rewrite Z.pow_add_r by lia.
    change (2 ^ 52) with 4503599627370496. nia. }
  (* and at least those of its first term *)
  assert (HD1 : dm - 1 + (ex - ez) < D).
  { apply digits2_pos_gt; [lia|]. rewrite Z.pow_add_r by lia.
    destruct Hm as [Hm _]. fold dm in Hm.
    assert (0 < 2 ^ (dm - 1)) by (apply Z.pow_pos_nonneg; lia). nia. }
  (* strictly more than 53 digits *)
  assert (HD53 : 53 < D).
  { destruct (Z.eq_dec ec ez) as [E|E]; [|lia].
    assert (dm = 53) by lia.
    assert (2 ^ 53 <= Z.pos M); [|apply digits2_pos_gt in H0; fold D in H0; lia].
    destruct Hm as [Hm _]. fold dm in Hm. rewrite H in Hm.
    change (2 ^ (53 - 1)) with 4503599627370496 in Hm.
    change (2 ^ 53) with (4503599627370496 + 4503599627370496). nia. }
  assert (Hal : shl_align M ez (fexp prec emax (D + ez)) = (M, ez)).
  { unfold shl_align. rewrite fexp_eq.
    destruct (Z.max (D + ez - 53) (-1074) - ez) eqn:E; try reflexivity. lia. }
  rewrite Hal. cbv beta iota.
  pose proof (binary_round_aux_lower M ez) as HR.
  cbv zeta in HR. fold D in HR.
  destruct HR as [->|(m'' & e'' & -> & He'')]; try lia; [left; reflexivity|].
  right. exists m'', e''. split; [reflexivity|].
  destruct (Z.eq_dec (D + ez - 53) ex) as [HDe|HDe].
  - destruct He'' as [He''|[-> Hq]]; [left; lia|].
    right. split; [exact HDe|].
    assert (Hk : D - 53 = ex - ez) by lia. rewrite Hk in Hq.
    assert (Hge : Z.pos m <= Z.pos M / 2 ^ (ex - ez)).
    { apply Z.div_le_lower_bound; [exact Hp1|]. nia. }
    split; [lia|]. intros Hex.
    assert (Hge' : Z.pos m + 1 <= Z.pos M / 2 ^ (ex - ez)).
    { apply Z.div_le_lower_bound; [exact Hp1|].
      assert (2 ^ (ex - ez) <= Z.pos mc * 2 ^ (ec - ez)); [|nia].
      assert (2 ^ (ex - ez) <= 2 ^ (52 + (ec - ez)))
        by (apply Z.pow_le_mono_r; lia).
      rewrite Z.pow_add_r in H by lia.
      change (2 ^ 52) with 4503599627370496 in H. nia. }
    lia.
  - left.
    assert (ex <= D + ez - 53).
    { destruct (Z.eq_dec dm 53); [lia|].
      assert (ex = -1074) by lia. lia. }
    lia.
Qed.

Close Scope Z_scope.

Open Scope float_scope.

Lemma nonneg_inv (x : float) :
  (0 <=? x) = true ->
  (exists s, Prim2SF x = S754_zero s)
  \/ Prim2SF x = S754_infinity false
  \/ exists m ex, Prim2SF x = S754_finite false m ex
                  /\ bounded prec emax m ex = true.
Proof.
  rewrite leb_spec. change (Prim2SF 0) with (S754_zero false). intros H.
  pose proof (Prim2SF_valid x) as Hv.
  destruct (Prim2SF x) as [s|[]| |[] m ex]; try discriminate.
  - left. exists s. reflexivity.
  - right. left. reflexivity.
  - right. right. exists m, ex. split; [reflexivity|exact Hv].
Qed.

Lemma ltb_not_leb (a b : float) : (a <? b) = true -> (b <=? a) = false.
Proof.
  rewrite ltb_spec, leb_spec. unfold SFltb, SFleb.
  rewrite (SFcompare_antisym (Prim2SF a) (Prim2SF b)).
  destruct (SFcompare _ _) as [[]|]; cbn [CompOpp]; congruence.
Qed.

(** [x <= x + c] for a non-negative [x] and a normal positive [c]. *)
Lemma add_const_ge (x c : float) (mc : positive) (ec : Z) :
  Prim2SF c = S754_finite false mc ec ->
  Z.pos (digits2_pos mc) = 53%Z -> (-1074 < ec)%Z ->
  (0 <=? x) = true -> (x <=? x + c) = true.
Proof.
  intros Hc Hd He Hx. rewrite leb_spec, add_spec, Hc.
  destruct (nonneg_inv Hx) as [[s ->]|[->|(m & ex & -> & Hb)]];
    [reflexivity|reflexivity|].
  destruct (@SFadd_pos_lower m mc ex ec Hb Hd He)
    as [->|(m'' & e'' & -> & [Hlt|(-> & Hle & _)])]; [reflexivity| |].
  - unfold SFleb, SFcompare. apply Z.compare_lt_iff in Hlt. rewrite Hlt.
    reflexivity.
  - unfold SFleb, SFcompare. rewrite Z.compare_refl.
    change (Pos.compare_cont Eq m m'') with (m ?= m'')%positive.
    destruct (Pos.compare_spec m m'') as [E|E|E]; try reflexivity.
    apply Pos2Z.pos_lt_pos in E. apply Z.lt_nge in E. contradiction.
Qed.

(** [x < x + c] for a non-negative [x] up to [2^53] and a normal [c]
    that is at least 2. *)
Lemma add_const_gt (x c : float) (mc : positive) (ec : Z) :
  Prim2SF c = S754_finite false mc ec ->
  Z.pos (digits2_pos mc) = 53%Z -> (-51 <= ec)%Z ->
  (0 <=? x) = true -> (x <=? 9007199254740992) = true ->
  (x <? x + c) = true.
Proof.
  intros Hc Hd He Hx Hx53. rewrite ltb_spec, add_spec, Hc.
  rewrite leb_spec in Hx53.
  change (Prim2SF 9007199254740992)
    with (S754_finite false 4503599627370496 1) in Hx53.
  destruct (nonneg_inv Hx) as [[s E]|[E|(m & ex & E & Hb)]]; rewrite E in *;
    [reflexivity|discriminate|].
  assert (Hex : (ex <= 1)%Z).
  { unfold SFleb, SFcompare in Hx53.
    destruct (Z.compare_spec ex 1); try discriminate; lia. }
  assert (He' : (-1074 < ec)%Z) by lia.
  destruct (@SFadd_pos_lower m mc ex ec Hb Hd He')
    as [->|(m'' & e'' & -> & [Hlt|(-> & _ & Hlt)])]; [reflexivity| |].
  - unfold SFltb, SFcompare. apply Z.compare_lt_iff in Hlt. rewrite Hlt.
    reflexivity.
  - unfold SFltb, SFcompare. rewrite Z.compare_refl.
    change (Pos.compare_cont Eq m m'') with (m ?= m'')%positive.
    assert (Hm : (Z.pos m < Z.pos m'')%Z) by (apply Hlt; lia).
    destruct (Pos.compare_spec m m'') as [E'|E'|E']; try reflexivity.
    + subst m''. exfalso. apply (Z.lt_irrefl _ Hm).
    + apply Pos2Z.pos_lt_pos in E'. exfalso.
      apply (Z.lt_irrefl (Z.pos m)). apply (Z.lt_trans _ _ _ Hm E').
Qed.

(** The sum of a non-negative number and a normal positive constant is
    non-negative. *)
Lemma add_const_nonneg (x c : float) (mc : positive) (ec : Z) :
  Prim2SF c = S754_finite false mc ec ->
  Z.pos (digits2_pos mc) = 53%Z -> (-1074 < ec)%Z ->
  (0 <=? x) = true -> (0 <=? x + c) = true.
Proof.
  intros Hc Hd He Hx. rewrite leb_spec, add_spec, Hc.
  change (Prim2SF 0) with (S754_zero false).
  destruct (nonneg_inv Hx) as [[s ->]|[->|(m & ex & -> & Hb)]];
    [reflexivity|reflexivity|].
  destruct (@SFadd_pos_lower m mc ex ec Hb Hd He)
    as [->|(m'' & e'' & -> & _)]; reflexivity.
Qed.

(** [<=] is transitive on the non-negative numbers. *)
Lemma leb_trans_nonneg (a b c : float) :
  (0 <=? a) = true -> (a <=? b) = true -> (b <=? c) = true ->
  (a <=? c) = true.
Proof.
  intros Ha. rewrite !leb_spec.
  destruct (nonneg_inv Ha) as [[s ->]|[->|(m & ex & -> & _)]].
  - destruct (Prim2SF b) as [[]|[]| |[] mb eb], (Prim2SF c) as [[]|[]| |[] mc ec];
      intros; try discriminate; reflexivity.
  - destruct (Prim2SF b) as [[]|[]| |[] mb eb], (Prim2SF c) as [[]|[]| |[] mc ec];
      intros; try discriminate; reflexivity.
  - destruct (Prim2SF b) as [[]|[]| |[] mb eb], (Prim2SF c) as [[]|[]| |[] mc ec];
      intros Hab Hbc; try discriminate; try reflexivity.
    unfold SFleb, SFcompare in *.
    change (Pos.compare_cont Eq m mb) with (m ?= mb)%positive in Hab.
    change (Pos.compare_cont Eq mb mc) with (mb ?= mc)%positive in Hbc.
    change (Pos.compare_cont Eq m mc) with (m ?= mc)%positive.
    destruct (Z.compare_spec ex eb) as [E1|E1|E1]; try discriminate;
      destruct (Z.compare_spec eb ec) as [E2|E2|E2]; try discriminate;
      destruct (Z.compare_spec ex ec) as [E3|E3|E3]; try reflexivity;
      try (exfalso; lia).
    destruct (Pos.compare_spec m mb) as [F1|F1|F1]; try discriminate;
      destruct (Pos.compare_spec mb mc) as [F2|F2|F2]; try discriminate;
      destruct (Pos.compare_spec m mc) as [F3|F3|F3]; try reflexivity;
      exfalso; subst; try (apply (Pos.lt_irrefl _ F3));
      try (apply (Pos.lt_irrefl _ (Pos.lt_trans _ _ _ F1 F3)));
      try (apply (Pos.lt_irrefl _ (Pos.lt_trans _ _ _ F2 F3)));
      apply (Pos.lt_irrefl _ (Pos.lt_trans _ _ _ F1 (Pos.lt_trans _ _ _ F2 F3))).
Qed.

Lemma nonneg_not_nan (x : float) : (0 <=? x) = true -> is_nan x = false.
Proof.
  intros H. apply is_nan_false_iff.
  destruct (nonneg_inv H) as [[s ->]|[->|(m & ex & -> & _)]]; discriminate.
Qed.

(** The [due] time after a grade, read from the three branches. *)
Lemma reviewCard_due {X : Type} (c : Card X) (action : jsstring) (now : float) :
  due (reviewCard c action now)
  = Some (if str_eqb action (lit "again") then addMinutes now 10
          else if str_eqb action (lit "learning") then addHours now 6
          else addDays now
                 (if nullish (intervalDays c) 0 <=? 0 then 1
                  else if nullish (intervalDays c) 0 =? 1 then 3
                  else Math_round (nullish (intervalDays c) 0 * effective_ease c))).
Proof.
  destruct c as [e d r l s du x]. unfold reviewCard, effective_ease.
  destruct (str_eqb action (lit "again")); [reflexivity|].
  destruct (str_eqb action (lit "learning")); [reflexivity|].
  cbn [ease intervalDays reps lapses state due rest set_ease set_intervalDays
       set_reps set_lapses set_state set_due num nullish].
  destruct (nullish d 0 <=? 0); [reflexivity|].
  destruct (nullish d 0 =? 1); reflexivity.
Qed.

(** The [lapses] after a grade. *)
Lemma reviewCard_lapses {X : Type} (c : Card X) (action : jsstring) (now : float) :
  lapses (reviewCard c action now)
  = Some (if str_eqb action (lit "again") then nullish (lapses c) 0 + 1
          else nullish (lapses c) 0).
Proof.
  destruct c as [e d r l s du x]. unfold reviewCard.
  destruct (str_eqb action (lit "again")); [reflexivity|].
  destruct (str_eqb action (lit "learning")); [reflexivity|].
  cbn [ease intervalDays reps lapses state due rest set_ease set_intervalDays
       set_reps set_lapses set_state set_due num nullish].
  destruct (nullish d 0 <=? 0); [reflexivity|].
  destruct (nullish d 0 =? 1); reflexivity.
Qed.

Lemma not_due_after_grade {X : Type} (c : Card X) (now : float) :
  (0 <=? now) = true -> (now <=? 9007199254740992) = true ->
  isDue (reviewCard c (lit "again") now) now = false
  /\ isDue (reviewCard c (lit "learning") now) now = false
  /\ ((nullish (intervalDays c) 0 <=? 0) = true
      \/ (nullish (intervalDays c) 0 =? 1) = true ->
      isDue (reviewCard c (lit "known") now) now = false).
Proof.
  intros H0 H53. unfold isDue. rewrite !reviewCard_due.
  cbn [nullish str_eqb lit].
  assert (Hgt : forall k mc ec,
             Prim2SF k = S754_finite false mc ec ->
             Z.pos (digits2_pos mc) = 53%Z -> (-51 <= ec)%Z ->
             (now + k <=? now) = false).
  { intros k mc ec Hk Hd He. apply ltb_not_leb.
    apply (@add_const_gt now k mc ec Hk Hd He H0 H53). }
  split; [|split].
  - eapply Hgt; [vm_compute; reflexivity|reflexivity|lia].
  - eapply Hgt; [vm_compute; reflexivity|reflexivity|lia].
  - intros [Hd|Hd].
    + rewrite Hd.
      eapply Hgt; [vm_compute; reflexivity|reflexivity|lia].
    + destruct (nullish (intervalDays c) 0 <=? 0).
      * eapply Hgt; [vm_compute; reflexivity|reflexivity|lia].
      * rewrite Hd.
        eapply Hgt; [vm_compute; reflexivity|reflexivity|lia].
Qed.

(** X21. A card graded at a time [now] between 0 and [2^53] (every
    value of [Date.now()]) is not due at that time after "again" or
    "learning", nor after "known" when its interval was [<= 0] (or
    absent) or 1: the graded card leaves the due queue. *)
Theorem graded_card_is_not_due {X : Type} (c : Card X) (now : float) :
  (0 <=? now) = true -> (now <=? 9007199254740992) = true ->
  isDue (reviewCard c (lit "again") now) now = false
  /\ isDue (reviewCard c (lit "learning") now) now = false
  /\ ((nullish (intervalDays c) 0 <=? 0) = true
      \/ (nullish (intervalDays c) 0 =? 1) = true ->
      isDue (reviewCard c (lit "known") now) now = false).
Proof. apply not_due_after_grade. Qed.

Lemma graded_card_is_not_due_witness :
  (0 <=? 1700000000000) = true /\ (1700000000000 <=? 9007199254740992) = true
  /\ isDue (reviewCard (mkCard None None None None None None tt)
              (lit "again") 1700000000000) 1700000000000 = false.
Proof.
  split; [reflexivity|]. split; [reflexivity|].
  exact (proj1 (@graded_card_is_not_due unit
                  (mkCard None None None None None None tt) 1700000000000
                  eq_refl eq_refl)).
Defined.

(** One grade keeps [lapses] non-negative and does not decrease it. *)
Lemma grade_all_lapses_step {X : Type} (c : Card X) (action : jsstring) (now : float) :
  (0 <=? nullish (lapses c) 0) = true ->
  (0 <=? nullish (lapses (reviewCard c action now)) 0) = true
  /\ (nullish (lapses c) 0 <=? nullish (lapses (reviewCard c action now)) 0) = true.
Proof.
  intros H. rewrite reviewCard_lapses. cbn [nullish].
  destruct (str_eqb action (lit "again")).
  - split.
    + apply (@add_const_nonneg _ 1 _ _ Prim2SF_one eq_refl ltac:(lia) H).
    + apply (@add_const_ge _ 1 _ _ Prim2SF_one eq_refl ltac:(lia) H).
  - split; [exact H|]. apply leb_refl, nonneg_not_nan, H.
Qed.

(** X22. [lapses] never decreases: for a card whose [lapses] is a
    non-negative number (or absent), every grade, and every sequence of
    grades, leaves a non-negative [lapses] that is at least the previous
    one; only "again" changes it. *)
Theorem lapses_never_decrease {X : Type} (c : Card X) (steps : list (jsstring * float)) :
  (0 <=? nullish (lapses c) 0) = true ->
  (0 <=? nullish (lapses (grade_all c steps)) 0) = true
  /\ (nullish (lapses c) 0 <=? nullish (lapses (grade_all c steps)) 0) = true
  /\ (forall action now, action <> lit "again" ->
        lapses (reviewCard c action now) = Some (nullish (lapses c) 0)).
Proof.
  intros H. split; [|split].
  - revert c H. induction steps as [|[a t] steps IH]; intros c H; [exact H|].
    apply IH. apply (grade_all_lapses_step c a t H).
  - revert c H. induction steps as [|[a t] steps IH]; intros c H.
    + apply leb_refl, nonneg_not_nan, H.
    + destruct (grade_all_lapses_step c a t H) as [H1 H2].
      apply (leb_trans_nonneg H H2). apply IH. exact H1.
  - intros action now Hne. rewrite reviewCard_lapses, (str_eqb_neq Hne).
    reflexivity.
Qed.

Lemma lapses_never_decrease_witness :
  let c := mkCard None None None (Some 4) None None tt in
  let steps := [(lit "again", 10); (lit "known", 20); (lit "again", 30)] in
  (0 <=? nullish (lapses c) 0) = true
  /\ (nullish (lapses c) 0 <=? nullish (lapses (grade_all c steps)) 0) = true.
Proof.
  cbv zeta. split; [reflexivity|].
  exact (proj1 (proj2 (@lapses_never_decrease unit
    (mkCard None None None (Some 4) None None tt)
    [(lit "again", 10); (lit "known", 20); (lit "again", 30)] eq_refl))).
Defined.

(** X23. A grade other than "again" never lowers the ease of a card
    whose ease is a non-negative number (or absent): "learning" keeps it
    and every other action but "again" raises it or keeps it. *)
Theorem ease_not_lowered {X : Type} (c : Card X) (action : jsstring) (now : float) :
  (0 <=? effective_ease c) = true -> action <> lit "again" ->
  (effective_ease c <=? effective_ease (reviewCard c action now)) = true
  /\ (action = lit "learning" ->
      ease (reviewCard c action now) = Some (effective_ease c)).
Proof.
  intros H Hne. unfold effective_ease at 2. rewrite reviewCard_ease.
  rewrite (str_eqb_neq Hne). cbn [nullish].
  destruct (str_eqb action (lit "learning")) eqn:E.
  - split; [apply leb_refl, nonneg_not_nan, H|reflexivity].
  - split.
    + apply (@add_const_ge _ lit_0_05 _ _ Prim2SF_lit_0_05 eq_refl ltac:(lia) H).
    + intros El. apply str_eqb_eq in El. congruence.
Qed.

Lemma ease_not_lowered_witness :
  let c := mkCard (Some 2.5) None None None None None tt in
  (0 <=? effective_ease c) = true /\ lit "known" <> lit "again"
  /\ (effective_ease c <=? effective_ease (reviewCard c (lit "known") 5)) = true.
Proof.
  cbv zeta. split; [reflexivity|]. split; [discriminate|].
  apply (@ease_not_lowered unit (mkCard (Some 2.5) None None None None None tt)
           (lit "known") 5 eq_refl); discriminate.
Defined.

Close Scope float_scope.

(* ================================================================= *)
(** * Grading and the due queue; typing a word with a sense number *)

Section DueQueue.

Context {X : Type}.
Variable getId : X -> jsstring.

(** X24. After [act("again")] or [act("learning")] at a time between 0
    and [2^53], no card with the id of the active card is left in the
    due queue computed at that same time. *)
Theorem graded_card_leaves_due_queue (prev : list (Card X)) (a : Card X)
    (action : jsstring) (now : float) :
  (0 <=? now)%float = true -> (now <=? 9007199254740992)%float = true ->
  action = lit "again" \/ action = lit "learning" ->
  forall c, In c (queue (act getId prev (Some a) action now) (lit "due") now) ->
            card_id getId c <> card_id getId a.
Proof.
  intros H0 H53 Hact c Hin.
  unfold queue in Hin.
  change (str_eqb (lit "due") (lit "due")) with true in Hin. cbv iota in Hin.
  apply filter_In in Hin as [Hin Hdue]. unfold act in Hin.
  apply in_map_iff in Hin as (c0 & Hc & _).
  destruct (str_eqb (card_id getId c0)
              (card_id getId (reviewCard a action now))) eqn:E.
  - exfalso. subst c.
    destruct (@not_due_after_grade X a now H0 H53) as (Ha & Hl & _).
    destruct Hact as [-> | ->]; congruence.
  - subst c. intros Heq. unfold card_id in E, Heq.
    rewrite reviewCard_rest in E. rewrite Heq in E.
    rewrite (proj2 (str_eqb_eq _ _) eq_refl) in E. discriminate.
Qed.

End DueQueue.

Lemma graded_card_leaves_due_queue_witness :
  let a := mkCard None None None None None None (lit "1-a") in
  (0 <=? 1000)%float = true /\ (1000 <=? 9007199254740992)%float = true
  /\ forall c, In c (queue (act (fun x : jsstring => x) [a] (Some a)
                               (lit "again") 1000%float) (lit "due") 1000%float) ->
               card_id (fun x : jsstring => x) c <> card_id (fun x : jsstring => x) a.
Proof.
  cbv zeta. split; [reflexivity|]. split; [reflexivity|].
  apply (@graded_card_leaves_due_queue jsstring (fun x => x));
    [reflexivity|reflexivity|left; reflexivity].
Defined.

Lemma digit_not_white (c : N) : isDigit c = true -> isWhiteSpace c = false.
Proof.
  unfold isDigit. intros H. apply andb_prop in H as [H1 H2].
  apply N.leb_le in H1, H2. apply not_true_is_false. unfold isWhiteSpace.
  rewrite !orb_true_iff, !andb_true_iff, !N.leb_le, !N.eqb_eq. lia.
Qed.

Lemma trimStart_app (w t : jsstring) (c : N) :
  isWhiteSpace c = false -> trimStart (w ++ c :: t) = trimStart w ++ c :: t.
Proof.
  intros Hc. induction w as [|x w IH]; simpl.
  - rewrite Hc. reflexivity.
  - destruct (isWhiteSpace x); [exact IH|reflexivity].
Qed.

Lemma trim_sense_suffix (w : jsstring) (h d1 d2 : N) :
  isHangulSyllable h = true -> isDigit d2 = true ->
  trim (w ++ [h; d1; d2]) = trimStart w ++ [h; d1; d2].
Proof.
  intros Hh Hd2. unfold trim, trimEnd.
  rewrite (@trimStart_app w [d1; d2] h (@hangul_not_white h Hh)).
  change (trimStart w ++ [h; d1; d2]) with (trimStart w ++ [h; d1] ++ [d2]).
  rewrite app_assoc, rev_app_distr. simpl rev at 1. simpl app at 1.
  simpl trimStart. rewrite (@digit_not_white d2 Hd2).
  change (d2 :: rev (trimStart w ++ [h; d1]))
    with (rev [d2] ++ rev (trimStart w ++ [h; d1])).
  rewrite <- rev_app_distr, rev_involutive. reflexivity.
Qed.

Section SenseNumber.

Variable toLowerCase : jsstring -> jsstring.

(** X25. For a raw word made of [w], a Hangul syllable and a two-digit
    sense number, the display word [stripSenseSuffix] computes is the raw
    word without its leading white space and without the number; it has
    the normal form of [w] followed by the syllable, so [submitTyping]
    reports [ok] exactly for the typed texts with that normal form. *)
Theorem sense_number_is_not_typed (w typed : jsstring) (h d1 d2 : N) :
  isHangulSyllable h = true -> isDigit d1 = true -> isDigit d2 = true ->
  let word := stripSenseSuffix (w ++ [h; d1; d2]) in
  word = trimStart w ++ [h]
  /\ normalizeAnswer toLowerCase word = normalizeAnswer toLowerCase (w ++ [h])
  /\ fst (submitTyping toLowerCase typed word)
     = str_eqb (normalizeAnswer toLowerCase typed)
               (normalizeAnswer toLowerCase (w ++ [h])).
Proof.
  intros Hh Hd1 Hd2. cbv zeta.
  assert (E : stripSenseSuffix (w ++ [h; d1; d2]) = trimStart w ++ [h]).
  { unfold stripSenseSuffix. cbv zeta. rewrite (@trim_sense_suffix w h d1 d2 Hh Hd2).
    assert (Hr : rev (trimStart w ++ [h; d1; d2])
                 = d2 :: d1 :: h :: rev (trimStart w))
      by (rewrite rev_app_distr; reflexivity).
    rewrite Hr. cbv iota. rewrite Hh, Hd1, Hd2. cbn [andb].
    cbn [rev]. rewrite rev_involutive. reflexivity. }
  assert (En : normalizeAnswer toLowerCase (trimStart w ++ [h])
               = normalizeAnswer toLowerCase (w ++ [h])).
  { unfold normalizeAnswer. rewrite !removeWhiteSpace_trim.
    unfold removeWhiteSpace. rewrite !filter_app.
    fold (removeWhiteSpace (trimStart w)). fold (removeWhiteSpace w).
    rewrite removeWhiteSpace_trimStart. reflexivity. }
  rewrite E. split; [reflexivity|]. split; [exact En|].
  unfold submitTyping. cbn [fst]. rewrite En. reflexivity.
Qed.

End SenseNumber.

Lemma sense_number_is_not_typed_witness :
  isHangulSyllable 44201 = true /\ isDigit 48 = true /\ isDigit 49 = true
  /\ stripSenseSuffix ([32; 44032]%N ++ [44201; 48; 49]%N)
     = trimStart [32; 44032]%N ++ [44201%N].
Proof.
  split; [reflexivity|]. split; [reflexivity|]. split; [reflexivity|].
  exact (proj1 (@sense_number_is_not_typed asciiToLowerCase [32; 44032]%N []
                  44201%N 48%N 49%N eq_refl eq_refl eq_refl)).
Defined.
